(** * Range-addressed text editing in typora-copilot

    A shallow embedding of [sliceTextByRange] and [replaceTextByRange]
    from [src/utils/tools.ts], together with the JavaScript built-ins
    they call ([String.prototype.split], [String.prototype.slice],
    [Array.prototype.slice], [Array.prototype.join] and indexed array
    access), and the properties the specification states about them.
    The helpers [omit] and [css] of the same file follow, with what the
    code of each guarantees.  The remaining functions of the repository
    act on the host's global object and on the DOM and are not modelled.

    A JavaScript string is a finite sequence of code units.  Nothing
    below depends on the width of a code unit, so a code unit is an
    [ascii] and a string is a [list ascii]; literals are written with
    [js].  Line and character indices are integers ([Z]): the source
    types them as [number] and the built-ins give a meaning to negative
    ones, which the model keeps. *)

From Stdlib Require Import String Ascii List ZArith Lia Bool Permutation.
Import ListNotations.

Set Implicit Arguments.

(** ** Strings *)

Definition jsstring := list ascii.

Definition js (s : string) : jsstring := list_ascii_of_string s.

Definition LF : ascii := "010"%char.
Definition CR : ascii := "013"%char.

(** ** Completions: a call returns a value or throws *)

Inductive JsError : Type :=
| TypeError.

Inductive completion (A : Type) : Type :=
| Ok (a : A)
| Throw (e : JsError).

Arguments Ok {A} a.
Arguments Throw {A} e.

Definition bind {A B : Type} (c : completion A) (k : A -> completion B)
  : completion B :=
  match c with
  | Ok a => k a
  | Throw e => Throw e
  end.

Notation "x <- c ;; k" := (bind c (fun x => k))
  (at level 61, c at next level, right associativity).

Definition throws {A : Type} (c : completion A) : bool :=
  match c with
  | Ok _ => false
  | Throw _ => true
  end.

(** ** The built-ins *)

Module Builtin.

(** [relativeIndex len i]: how [slice] reads an index argument.  A
    negative index counts from the end; the result is clamped to
    [0 .. len]. *)
Definition relativeIndex (len i : Z) : Z :=
  if (i <? 0)%Z then Z.max (len + i) 0 else Z.min i len.

(** [String.prototype.slice(from, to)] and [Array.prototype.slice(from, to)];
    [to = None] is the omitted second argument. *)
Definition slice {A : Type} (l : list A) (from : Z) (to : option Z) : list A :=
  let len := Z.of_nat (length l) in
  let k := relativeIndex len from in
  let final := match to with
               | None => len
               | Some e => relativeIndex len e
               end in
  firstn (Z.to_nat (final - k)) (skipn (Z.to_nat k) l).

(** [a[i]]: the element, or [undefined] ([None]) when [i] is not the
    index of an element. *)
Definition index {A : Type} (l : list A) (i : Z) : option A :=
  if (i <? 0)%Z then None else nth_error l (Z.to_nat i).

(** [undefined.slice(...)] throws; this is the only way the two
    functions can fail. *)
Definition deref {A : Type} (o : option A) : completion A :=
  match o with
  | Some a => Ok a
  | None => Throw TypeError
  end.

(** [Array.prototype.join(sep)] on an array of strings. *)
Fixpoint join (rows : list jsstring) (sep : jsstring) : jsstring :=
  match rows with
  | [] => []
  | r :: rest =>
      match rest with
      | [] => r
      | _ :: _ => r ++ sep ++ join rest sep
      end
  end.

(** [startsWith sep s]: [sep] occurs in [s] at position 0. *)
Fixpoint startsWith (sep s : jsstring) : bool :=
  match sep, s with
  | [], _ => true
  | _ :: _, [] => false
  | a :: sep', b :: s' => Ascii.eqb a b && startsWith sep' s'
  end.

(** The scan of [String.prototype.split] for a non-empty separator.
    [row] is the text read since the last separator; [skip] counts the
    code units of a separator just matched that are still to be passed
    over.  The leftmost occurrence wins and the search resumes after
    it. *)
Fixpoint splitFrom (sep : jsstring) (skip : nat) (row : jsstring)
                   (s : jsstring) : list jsstring :=
  match s with
  | [] => [row]
  | c :: s' =>
      match skip with
      | S k => splitFrom sep k row s'
      | O =>
          if startsWith sep s
          then row :: splitFrom sep (length sep - 1) [] s'
          else splitFrom sep 0 (row ++ [c]) s'
      end
  end.

(** [String.prototype.split(sep)] with a string separator and no limit.
    An empty separator splits into single code units, and the empty
    string then gives the empty array. *)
Definition split (s sep : jsstring) : list jsstring :=
  match sep with
  | [] => map (fun c => [c]) s
  | _ :: _ => splitFrom sep 0 [] s
  end.

End Builtin.

Import Builtin.

(** ** Positions and ranges *)

Record Position : Type := mkPosition {
  line : Z;
  character : Z
}.

Record Range : Type := mkRange {
  start : Position;
  end_ : Position
}.

(** The value [sliceTextByRange] returns: a string, or an array of rows
    when [returnRows] is true. *)
Inductive Sliced : Type :=
| Str (s : jsstring)
| Rows (rs : list jsstring).

(** ** The two functions of [src/utils/tools.ts] *)

(** An omitted (or [undefined]) argument is [None]. *)
Definition orDefault {A : Type} (d : A) (o : option A) : A :=
  match o with
  | Some a => a
  | None => d
  end.

Definition defaultEol : jsstring := [LF].

Definition sliceTextByRange (text : jsstring) (range : Range)
    (eol : option jsstring) (returnRows : option bool)
  : completion Sliced :=
  let eol := orDefault defaultEol eol in
  let returnRows := orDefault false returnRows in
  let lines := split text eol in
  startRow <- deref (index lines (line (start range))) ;;
  let startLine := slice startRow (character (start range)) None in
  if (line (start range) =? line (end_ range))%Z
  then Ok (if returnRows then Rows [startLine] else Str startLine)
  else
    endRow <- deref (index lines (line (end_ range))) ;;
    let endLine := slice endRow 0 (Some (character (end_ range))) in
    let middle :=
      slice lines (line (start range) + 1) (Some (line (end_ range))) in
    if returnRows
    then Ok (Rows (startLine :: middle ++ [endLine]))
    else Ok (Str (join (startLine :: middle ++ [endLine]) eol)).

(** The source binds [startLine] and [endLine] to the rows as read and
    calls [slice] on them while building the result; a missing row makes
    that call throw.  Everything in between is pure, so the model raises
    the error where the row is read. *)
Definition replaceTextByRange (text : jsstring) (range : Range)
    (newText : jsstring) (eol : option jsstring)
  : completion jsstring :=
  let eol := orDefault defaultEol eol in
  let lines := split text eol in
  startLine <- deref (index lines (line (start range))) ;;
  if (line (start range) =? line (end_ range))%Z
  then
    Ok (join
          (slice lines 0 (Some (line (start range)))
           ++ (slice startLine 0 (Some (character (start range)))
               ++ newText
               ++ slice startLine (character (end_ range)) None)
           :: slice lines (line (end_ range) + 1) None)
          eol)
  else
    endLine <- deref (index lines (line (end_ range))) ;;
    Ok (join
          (slice lines 0 (Some (line (start range)))
           ++ (slice startLine 0 (Some (character (start range))) ++ newText)
           :: slice lines (line (start range) + 1) (Some (line (end_ range)))
           ++ [slice endLine (character (end_ range)) None])
          eol).

(** ** Vocabulary of the specification *)

Definition range (sl sc el ec : Z) : Range :=
  mkRange (mkPosition sl sc) (mkPosition el ec).

(** Rows of a buffer and their number, for an explicit terminator. *)
Definition rowCount (text eol : jsstring) : nat :=
  length (split text eol).

(** A position is in bounds when its line is the index of a row and its
    character lies in [0 .. row.length]. *)
Definition inBounds (lines : list jsstring) (p : Position) : bool :=
  match index lines (line p) with
  | Some row =>
      (0 <=? character p)%Z && (character p <=? Z.of_nat (length row))%Z
  | None => false
  end.

(** [start] lexicographically at most [end]. *)
Definition ordered (r : Range) : bool :=
  (line (start r) <? line (end_ r))%Z
  || ((line (start r) =? line (end_ r))%Z
      && (character (start r) <=? character (end_ r))%Z).

Definition inverted (r : Range) : bool := negb (ordered r).

Definition validRange (lines : list jsstring) (r : Range) : bool :=
  inBounds lines (start r) && inBounds lines (end_ r) && ordered r.

Definition outOfRange (lines : list jsstring) (r : Range) : bool :=
  negb (inBounds lines (start r) && inBounds lines (end_ r)).

Definition isNone {A : Type} (o : option A) : bool :=
  match o with
  | Some _ => false
  | None => true
  end.

(** A row the call reads with [lines[i]!] does not exist: the start row
    is always read, the end row only when the two lines differ. *)
Definition rowMissing (lines : list jsstring) (r : Range) : bool :=
  isNone (index lines (line (start r)))
  || (negb (line (start r) =? line (end_ r))%Z
      && isNone (index lines (line (end_ r)))).

(** The substring of a row between two in-bounds offsets. *)
Definition substring (row : jsstring) (a b : nat) : jsstring :=
  firstn (b - a) (skipn a row).

(** The span a range addresses, in the words of the specification of
    [sliceByRange] (section 4.1, steps 3 and 4); it is the text a
    replacement removes.  Rows that do not exist count as empty. *)
Definition specSpanRows (lines : list jsstring) (r : Range) : list jsstring :=
  let sl := Z.to_nat (line (start r)) in
  let el := Z.to_nat (line (end_ r)) in
  let sc := Z.to_nat (character (start r)) in
  let ec := Z.to_nat (character (end_ r)) in
  if (line (start r) =? line (end_ r))%Z
  then [substring (nth sl lines []) sc ec]
  else skipn sc (nth sl lines [])
       :: firstn (el - sl - 1) (skipn (sl + 1) lines)
       ++ [firstn ec (nth el lines [])].

Definition specSpan (lines : list jsstring) (r : Range) (eol : jsstring)
  : jsstring :=
  join (specSpanRows lines r) eol.

(** Number of occurrences of a terminator in a text, counted as [split]
    finds them: leftmost first, without overlap. *)
Definition occurrences (eol s : jsstring) : nat :=
  length (split s eol) - 1.

(** [occursAt sep s i]: [sep] occurs in [s] at offset [i]. *)
Definition occursAt (sep s : jsstring) (i : nat) : bool :=
  startsWith sep (skipn i s).

(** No occurrence of [sep] in [s] lies across offset [n], that is, starts
    before [n] and ends after it. *)
Definition noStraddle (sep s : jsstring) (n : nat) : Prop :=
  forall i, i < n -> n < i + length sep -> occursAt sep s i = false.

(** [sep] does not occur in [s]. *)
Definition free (sep s : jsstring) : Prop :=
  forall i, occursAt sep s i = false.

(** No occurrence of [sep] in [s] starts before offset [n]. *)
Definition noneBefore (sep s : jsstring) (n : nat) : Prop :=
  forall i, i < n -> occursAt sep s i = false.

(** Offset, in the joined buffer, of character [c] of row [l]. *)
Definition offsetOf (lines : list jsstring) (eol : jsstring) (l c : nat)
  : nat :=
  length (join (firstn l lines ++ [firstn c (nth l lines [])]) eol).

(** ** Rows as [split] leaves them *)

(** A row that can be followed by a terminator: in [r] followed by
    [sep], no occurrence of [sep] starts inside [r]. *)
Definition closedRow (sep r : jsstring) : Prop :=
  noneBefore sep (r ++ sep) (length r).

(** The shape of the rows of a buffer: every row but the last is closed,
    and the last does not contain the terminator. *)
Fixpoint canonical (sep : jsstring) (rows : list jsstring) : Prop :=
  match rows with
  | [] => False
  | r :: rest =>
      match rest with
      | [] => free sep r
      | _ :: _ => closedRow sep r /\ canonical sep rest
      end
  end.

(** ** [omit] *)

(** A property key is a string, a number or a symbol. *)
Inductive PropertyKey : Type :=
| PString (s : jsstring)
| PNumber (n : Z)
| PSymbol (id : nat).

Fixpoint jsEqb (a b : jsstring) : bool :=
  match a, b with
  | [], [] => true
  | x :: a', y :: b' => Ascii.eqb x y && jsEqb a' b'
  | _, _ => false
  end.

(** [keys.includes(key)] for a string [key]: the comparison is
    SameValueZero, under which a string equals only a string with the
    same code units. *)
Definition includes (keys : list PropertyKey) (key : jsstring) : bool :=
  existsb (fun k => match k with
                    | PString s => jsEqb s key
                    | PNumber _ | PSymbol _ => false
                    end) keys.

(** The own properties of an object, each name once. *)
Definition getOwn {V : Type} (o : list (jsstring * V)) (key : jsstring)
  : option V :=
  match find (fun kv => jsEqb (fst kv) key) o with
  | Some kv => Some (snd kv)
  | None => None
  end.

Fixpoint upsert {V : Type} (o : list (jsstring * V)) (key : jsstring) (v : V)
  : list (jsstring * V) :=
  match o with
  | [] => [(key, v)]
  | kv :: o' =>
      if jsEqb (fst kv) key then (fst kv, v) :: o'
      else kv :: upsert o' key v
  end.

Definition protoKey : jsstring := js "__proto__".

(** An object as [omit] builds it: its own properties, and its
    prototype, which is [Object.prototype] unless one was installed. *)
Inductive Prototype (V : Type) : Type :=
| ObjectPrototype
| Installed (p : V).

Arguments ObjectPrototype {V}.
Arguments Installed {V} p.

Record JsObject (V : Type) : Type := mkObject {
  own : list (jsstring * V);
  proto : Prototype V
}.

Section Omit.

Variable V : Type.

(** Whether a value is an object or [null]: the values the setter of
    [Object.prototype.__proto__] accepts as a prototype. *)
Variable isObjectOrNull : V -> bool.

(** The rest of the loop once a prototype [p] has been installed on the
    result: the assignments still to come go through the chain of [p],
    which may hold setters or read-only properties, so they may be
    swallowed or throw.  Nothing is assumed about it. *)
Variable afterInstall :
  V -> list (jsstring * V) -> list (jsstring * V) -> completion (JsObject V).

(** The loop [for (const key in obj) if (!keys.includes(key))
    result[key] = obj[key]], from the own properties [result] has so
    far, with [Object.prototype] unmodified as its prototype.  An
    assignment to a name other than ["__proto__"] creates or updates an
    own property.  An assignment to ["__proto__"] reaches the setter
    inherited from [Object.prototype]: it creates no own property, does
    nothing for a primitive value, and installs an object (or [null]) as
    the prototype of the result, after which the remaining assignments
    are those of [afterInstall]. *)
Fixpoint copyInto (keys : list PropertyKey) (obj : list (jsstring * V))
                  (result : list (jsstring * V)) : completion (JsObject V) :=
  match obj with
  | [] => Ok (mkObject result ObjectPrototype)
  | kv :: rest =>
      if negb (includes keys (fst kv))
      then
        if jsEqb (fst kv) protoKey
        then
          if isObjectOrNull (snd kv)
          then afterInstall (snd kv) result
                 (filter (fun kv' => negb (includes keys (fst kv'))) rest)
          else copyInto keys rest result
        else copyInto keys rest (upsert result (fst kv) (snd kv))
      else copyInto keys rest result
  end.

(** [omit(obj, ...keys)].  [obj] is given by what [for (const key in obj)]
    visits: the enumerable string-named properties, each name once, with
    the value [obj[key]] reads. *)
Definition omit (obj : list (jsstring * V)) (keys : list PropertyKey)
  : completion (JsObject V) :=
  copyInto keys obj [].

(** Some assignment of the loop installs a prototype: a property named
    ["__proto__"], not listed in [keys], holds an object or [null]. *)
Definition installsPrototype (keys : list PropertyKey)
    (obj : list (jsstring * V)) : bool :=
  existsb (fun kv => negb (includes keys (fst kv))
                     && jsEqb (fst kv) protoKey
                     && isObjectOrNull (snd kv)) obj.

End Omit.

(** The names [omit] copies: those not listed, ["__proto__"] apart. *)
Definition kept (keys : list PropertyKey) (k : jsstring) : bool :=
  negb (includes keys k) && negb (jsEqb k protoKey).

(** The own properties the loop leaves when no prototype is installed
    (used to reason about [copyInto]). *)
Definition plainCopy {V : Type} (keys : list PropertyKey)
    (obj result : list (jsstring * V)) : list (jsstring * V) :=
  fold_left
    (fun acc kv => if kept keys (fst kv) then upsert acc (fst kv) (snd kv)
                   else acc)
    obj result.

Definition isStringKey (k : PropertyKey) : bool :=
  match k with
  | PString _ => true
  | PNumber _ | PSymbol _ => false
  end.

(** ** [css] *)

Record TemplateStrings : Type := mkTemplate {
  raw : list jsstring
}.

Section Css.

Variable V : Type.

(** [ToString] on a substitution; it throws on a symbol, for one. *)
Variable toString : V -> completion jsstring.

(** [String.raw(template, ...substitutions)]: the raw strings in turn,
    each but the last followed by the substitution of the same index
    when there is one. *)
Fixpoint StringRaw (literals : list jsstring) (substitutions : list V)
  : completion jsstring :=
  match literals with
  | [] => Ok []
  | l :: rest =>
      match rest with
      | [] => Ok l
      | _ :: _ =>
          match substitutions with
          | [] => r <- StringRaw rest [] ;; Ok (l ++ r)
          | x :: more =>
              t <- toString x ;;
              r <- StringRaw rest more ;;
              Ok (l ++ t ++ r)
          end
      end
  end.

Definition css (template : TemplateStrings) (substitutions : list V)
  : completion jsstring :=
  StringRaw (raw template) substitutions.

End Css.

(** ** Sanity checks on [split] *)

Example split_three :
  split (js "abc" ++ LF :: js "def" ++ LF :: js "ghi") [LF]
  = [js "abc"; js "def"; js "ghi"].
Proof. reflexivity. Qed.

Example split_crlf :
  split (js "a" ++ CR :: LF :: js "b" ++ [CR; LF]) [CR; LF]
  = [js "a"; js "b"; []].
Proof. reflexivity. Qed.

Example split_empty_separator :
  split (js "ab") [] = [js "a"; js "b"] /\ split [] [] = [].
Proof. split; reflexivity. Qed.

Example split_overlapping_separator :
  split (js "xaaay") (js "aa") = [js "x"; js "ay"].
Proof. reflexivity. Qed.

(** ** Facts about the built-ins *)

Section SliceFacts.

Context {A : Type}.
Implicit Types (l : list A) (i a b n : Z).

Lemma relativeIndex_inside len i :
  (0 <= i <= len)%Z -> relativeIndex len i = i.
Proof.
  intros H. unfold relativeIndex.
  destruct (Z.ltb_spec i 0); lia.
Qed.

Lemma relativeIndex_beyond len i :
  (0 <= len <= i)%Z -> relativeIndex len i = len.
Proof.
  intros H. unfold relativeIndex.
  destruct (Z.ltb_spec i 0); lia.
Qed.

Lemma index_nat l (k : nat) : index l (Z.of_nat k) = nth_error l k.
Proof.
  unfold index. destruct (Z.ltb_spec (Z.of_nat k) 0); [lia|].
  now rewrite Nat2Z.id.
Qed.

Lemma index_Some l i x :
  index l i = Some x ->
  (0 <= i < Z.of_nat (length l))%Z /\ nth_error l (Z.to_nat i) = Some x.
Proof.
  unfold index. destruct (Z.ltb_spec i 0); [discriminate|].
  intros E. split; [|exact E].
  assert (Z.to_nat i < length l) by (apply nth_error_Some; congruence).
  lia.
Qed.

Lemma index_None l i :
  index l i = None <-> (i < 0 \/ Z.of_nat (length l) <= i)%Z.
Proof.
  unfold index. destruct (Z.ltb_spec i 0).
  - split; [intros _; lia | reflexivity].
  - rewrite nth_error_None. lia.
Qed.

Lemma slice_from l n :
  (0 <= n <= Z.of_nat (length l))%Z ->
  slice l n None = skipn (Z.to_nat n) l.
Proof.
  intros H. unfold slice. rewrite relativeIndex_inside by lia.
  apply firstn_all2. rewrite length_skipn. lia.
Qed.

Lemma slice_upto l n :
  (0 <= n <= Z.of_nat (length l))%Z ->
  slice l 0 (Some n) = firstn (Z.to_nat n) l.
Proof.
  intros H. unfold slice.
  rewrite !relativeIndex_inside by lia.
  now rewrite Z.sub_0_r.
Qed.

Lemma slice_between l a b :
  (0 <= a)%Z -> (a <= b)%Z -> (b <= Z.of_nat (length l))%Z ->
  slice l a (Some b) = firstn (Z.to_nat b - Z.to_nat a) (skipn (Z.to_nat a) l).
Proof.
  intros Ha Hab Hb. unfold slice.
  rewrite !relativeIndex_inside by lia.
  f_equal. lia.
Qed.

(** A start index at or beyond the end index gives the empty slice. *)
Lemma slice_crossed l a b :
  (0 <= b <= a)%Z -> slice l a (Some b) = [].
Proof.
  intros H. unfold slice, relativeIndex.
  destruct (Z.ltb_spec a 0); [lia|].
  destruct (Z.ltb_spec b 0); [lia|].
  replace (Z.to_nat _) with 0 by lia. reflexivity.
Qed.

(** Indices beyond the length are clamped to it. *)
Lemma slice_from_beyond l n :
  (Z.of_nat (length l) <= n)%Z -> slice l n None = [].
Proof.
  intros H. unfold slice. rewrite relativeIndex_beyond by lia.
  now rewrite Z.sub_diag.
Qed.

Lemma slice_upto_beyond l n :
  (Z.of_nat (length l) <= n)%Z -> slice l 0 (Some n) = l.
Proof.
  intros H. unfold slice.
  rewrite relativeIndex_beyond by lia.
  rewrite relativeIndex_inside by lia.
  rewrite Z.sub_0_r, Nat2Z.id. apply firstn_all.
Qed.

(** Cutting a list at an element. *)
Lemma nth_error_cut l k x :
  nth_error l k = Some x ->
  l = firstn k l ++ x :: skipn (S k) l.
Proof.
  revert l. induction k as [|k IH]; intros [|y l] E; try discriminate.
  - injection E as ->. reflexivity.
  - simpl. f_equal. now apply IH.
Qed.

End SliceFacts.

(** ** Validity of a range, unpacked *)

Lemma inBounds_row lines p :
  inBounds lines p = true ->
  exists row,
    index lines (line p) = Some row
    /\ nth (Z.to_nat (line p)) lines [] = row
    /\ (0 <= line p < Z.of_nat (length lines))%Z
    /\ (0 <= character p <= Z.of_nat (length row))%Z.
Proof.
  unfold inBounds. destruct (index lines (line p)) as [row|] eqn:E;
    [|discriminate].
  intros H. apply andb_prop in H as [H1 H2].
  apply Z.leb_le in H1, H2.
  destruct (index_Some _ _ E) as [Hl Hn].
  exists row. repeat split; try lia; auto.
  now apply nth_error_nth.
Qed.

Lemma validRange_inv lines r :
  validRange lines r = true ->
  inBounds lines (start r) = true
  /\ inBounds lines (end_ r) = true
  /\ ((line (start r) < line (end_ r))%Z
      \/ (line (start r) = line (end_ r)
          /\ (character (start r) <= character (end_ r))%Z)).
Proof.
  unfold validRange, ordered. intros H.
  apply andb_prop in H as [H Ho]. apply andb_prop in H as [Hs He].
  repeat split; auto.
  apply orb_prop in Ho as [Ho|Ho].
  - left. now apply Z.ltb_lt.
  - right. apply andb_prop in Ho as [H1 H2].
    split; [now apply Z.eqb_eq | now apply Z.leb_le].
Qed.

(** The single-line path of [sliceTextByRange] never looks at
    [end.character]. *)
Lemma slice_single_line_ignores_end text l c e e' eol rr :
  sliceTextByRange text (range l c l e) eol rr
  = sliceTextByRange text (range l c l e') eol rr.
Proof.
  unfold sliceTextByRange, range; simpl.
  now rewrite Z.eqb_refl.
Qed.

(** What the single-line path returns on a valid range: the row from
    [start.character] to its end. *)
Lemma slice_single_line text r eol rr :
  let E := orDefault defaultEol eol in
  let lines := split text E in
  validRange lines r = true ->
  line (start r) = line (end_ r) ->
  sliceTextByRange text r eol rr
  = let rest := skipn (Z.to_nat (character (start r)))
                      (nth (Z.to_nat (line (start r))) lines []) in
    Ok (if orDefault false rr then Rows [rest] else Str rest).
Proof.
  intros E lines Hv Hl.
  destruct (validRange_inv _ _ Hv) as (Hs & _ & _).
  destruct (inBounds_row _ _ Hs) as (row & Hi & Hn & _ & Hc).
  unfold sliceTextByRange. fold E. fold lines.
  rewrite Hi. simpl. rewrite <- Hl, Z.eqb_refl, Hn.
  now rewrite slice_from by lia.
Qed.

(** ** The two paths of each function on valid ranges *)

(** The single-line path of [replaceTextByRange] on a valid range, in
    terms of plain prefixes and suffixes. *)
Lemma replace_single_line text r newText eol :
  let E := orDefault defaultEol eol in
  let lines := split text E in
  let sl := Z.to_nat (line (start r)) in
  let row := nth sl lines [] in
  validRange lines r = true ->
  line (start r) = line (end_ r) ->
  replaceTextByRange text r newText eol
  = Ok (join (firstn sl lines
              ++ (firstn (Z.to_nat (character (start r))) row
                  ++ newText
                  ++ skipn (Z.to_nat (character (end_ r))) row)
              :: skipn (S sl) lines) E).
Proof.
  intros E lines sl row Hv Hl.
  destruct (validRange_inv _ _ Hv) as (Hs & He & _).
  destruct (inBounds_row _ _ Hs) as (srow & His & Hns & Hsl & Hsc).
  destruct (inBounds_row _ _ He) as (erow & Hie & Hne & Hel & Hec).
  rewrite <- Hl in Hie, Hne. rewrite Hns in Hne. subst erow.
  fold sl in Hns. fold row in Hns. subst srow.
  unfold replaceTextByRange. fold E. fold lines.
  rewrite His. simpl bind. rewrite <- Hl, Z.eqb_refl.
  rewrite !slice_upto, !slice_from by lia.
  do 4 f_equal. unfold sl. f_equal. lia.
Qed.

(** What the multi-line path of [replaceTextByRange] returns on a valid
    range: the rows before [start.line], the start row's prefix followed
    by [newText], then the rows strictly between the two lines, then the
    end row's suffix as a row of its own; the rows after [end.line] are
    not in the result. *)
Lemma replace_multi_line text r newText eol :
  let E := orDefault defaultEol eol in
  let lines := split text E in
  let sl := Z.to_nat (line (start r)) in
  let el := Z.to_nat (line (end_ r)) in
  validRange lines r = true ->
  (line (start r) < line (end_ r))%Z ->
  replaceTextByRange text r newText eol
  = Ok (join (firstn sl lines
              ++ (firstn (Z.to_nat (character (start r))) (nth sl lines [])
                  ++ newText)
              :: firstn (el - sl - 1) (skipn (sl + 1) lines)
              ++ [skipn (Z.to_nat (character (end_ r))) (nth el lines [])])
             E).
Proof.
  intros E lines sl el Hv Hlt.
  destruct (validRange_inv _ _ Hv) as (Hs & He & _).
  destruct (inBounds_row _ _ Hs) as (srow & His & Hns & Hsl & Hsc).
  destruct (inBounds_row _ _ He) as (erow & Hie & Hne & Hel & Hec).
  fold sl in Hns. fold el in Hne.
  unfold replaceTextByRange. fold E. fold lines.
  rewrite His, Hie. simpl bind.
  destruct (Z.eqb_spec (line (start r)) (line (end_ r))); [lia|].
  rewrite !slice_upto, slice_from, slice_between by lia.
  rewrite Hns, Hne. fold sl.
  replace (Z.to_nat (line (start r) + 1)) with (sl + 1) by (unfold sl; lia).
  replace (Z.to_nat (line (end_ r)) - (sl + 1)) with (el - sl - 1)
    by (unfold sl, el; lia).
  reflexivity.
Qed.

(** Both functions throw exactly when a row they read is missing. *)
Lemma slice_throws text r eol rr :
  throws (sliceTextByRange text r eol rr)
  = rowMissing (split text (orDefault defaultEol eol)) r.
Proof.
  unfold sliceTextByRange, rowMissing.
  destruct (index _ (line (start r))) as [srow|]; simpl; [|reflexivity].
  destruct (Z.eqb_spec (line (start r)) (line (end_ r))); simpl.
  - now destruct (orDefault false rr).
  - destruct (index _ (line (end_ r))) as [erow|]; simpl; [|reflexivity].
    now destruct (orDefault false rr).
Qed.

Lemma replace_throws text r newText eol :
  throws (replaceTextByRange text r newText eol)
  = rowMissing (split text (orDefault defaultEol eol)) r.
Proof.
  unfold replaceTextByRange, rowMissing.
  destruct (index _ (line (start r))) as [srow|]; simpl; [|reflexivity].
  destruct (Z.eqb_spec (line (start r)) (line (end_ r))); simpl.
  - reflexivity.
  - now destruct (index _ (line (end_ r))) as [erow|].
Qed.

(** Reading a window of a list element by element. *)
Lemma nth_error_window {A : Type} (l : list A) (a n j : nat) :
  j < n -> nth_error (firstn n (skipn a l)) j = nth_error l (a + j).
Proof.
  intros H. rewrite nth_error_firstn.
  destruct (Nat.ltb_spec j n); [|lia].
  apply nth_error_skipn.
Qed.

(** ** The scan of [split] *)

Section SplitScan.

Variable sep : jsstring.
Hypothesis sep_nonempty : sep <> [].

Lemma startsWith_app (t : jsstring) : startsWith sep (sep ++ t) = true.
Proof.
  clear sep_nonempty. induction sep as [|a u IH]; simpl; [reflexivity|].
  now rewrite Ascii.eqb_refl.
Qed.

Lemma startsWith_inv (s : jsstring) :
  startsWith sep s = true -> exists t, s = sep ++ t.
Proof.
  clear sep_nonempty. revert s.
  induction sep as [|a u IH]; intros s H.
  - now exists s.
  - destruct s as [|b s]; [discriminate|]. simpl in H.
    apply andb_prop in H as [Hab Hu].
    apply Ascii.eqb_eq in Hab as ->.
    destruct (IH _ Hu) as [t ->]. now exists t.
Qed.

Lemma startsWith_longer (s t : jsstring) :
  startsWith sep s = true -> startsWith sep (s ++ t) = true.
Proof.
  intros H. destruct (startsWith_inv _ H) as [u ->].
  rewrite <- app_assoc. apply startsWith_app.
Qed.

(** Whether [sep] occurs at the head of [s] is decided by the first
    [length sep] code units of [s]. *)
Lemma startsWith_firstn (s : jsstring) :
  startsWith sep s = startsWith sep (firstn (length sep) s).
Proof.
  clear sep_nonempty. revert s.
  induction sep as [|a u IH]; intros s; [reflexivity|].
  destruct s as [|b s]; [reflexivity|]. simpl. now rewrite <- IH.
Qed.

Lemma startsWith_short (s : jsstring) :
  length s < length sep -> startsWith sep s = false.
Proof.
  intros H. destruct (startsWith sep s) eqn:E; [|reflexivity].
  destruct (startsWith_inv _ E) as [t ->].
  rewrite length_app in H. lia.
Qed.

Lemma splitFrom_skip (x : jsstring) row s :
  splitFrom sep (length x) row (x ++ s) = splitFrom sep 0 row s.
Proof.
  induction x as [|c x IH]; [reflexivity | exact IH].
Qed.

Lemma splitFrom_hit row s :
  splitFrom sep 0 row (sep ++ s) = row :: splitFrom sep 0 [] s.
Proof.
  pose proof (startsWith_app s) as Hs.
  destruct sep as [|c u] eqn:E; [contradiction|].
  change ((c :: u) ++ s) with (c :: (u ++ s)) in *.
  simpl splitFrom. simpl startsWith in Hs. rewrite Hs.
  rewrite Nat.sub_0_r. f_equal.
  rewrite <- E. apply splitFrom_skip.
Qed.

Lemma splitFrom_miss row c s :
  startsWith sep (c :: s) = false ->
  splitFrom sep 0 row (c :: s) = splitFrom sep 0 (row ++ [c]) s.
Proof.
  intros H. simpl splitFrom. now rewrite H.
Qed.

(** Induction along the scan: at each position either the separator is
    there and is passed over, or one code unit joins the current row. *)
Lemma scan_ind (P : jsstring -> Prop) :
  P [] ->
  (forall t, P t -> P (sep ++ t)) ->
  (forall c t, startsWith sep (c :: t) = false -> P t -> P (c :: t)) ->
  forall s, P s.
Proof.
  intros Hnil Hhit Hmiss s.
  remember (length s) as n eqn:Hn.
  revert s Hn. induction n as [n IH] using lt_wf_ind. intros s ->.
  destruct s as [|c s]; [exact Hnil|].
  destruct (startsWith sep (c :: s)) eqn:E.
  - destruct (startsWith_inv _ E) as [t Ht]. rewrite Ht.
    apply Hhit. apply (IH (length t)); [|reflexivity].
    rewrite Ht, length_app.
    destruct sep; [contradiction | simpl; lia].
  - apply Hmiss; [exact E|]. apply (IH (length s)); simpl; [lia|reflexivity].
Qed.

Lemma splitFrom_nonempty skip row s : splitFrom sep skip row s <> [].
Proof.
  clear sep_nonempty. revert skip row.
  induction s as [|c s IH]; intros skip row; simpl; [discriminate|].
  destruct skip; [|apply IH].
  destruct (startsWith sep (c :: s)); [discriminate | apply IH].
Qed.

Lemma join_cons r rest e :
  rest <> [] -> join (r :: rest) e = r ++ e ++ join rest e.
Proof. destruct rest; [contradiction | reflexivity]. Qed.

(** Joining what the scan produced gives the text back. *)
Lemma join_splitFrom s :
  forall row, join (splitFrom sep 0 row s) sep = row ++ s.
Proof.
  induction s as [|t IH|c t Hc IH] using scan_ind; intros row.
  - simpl. now rewrite app_nil_r.
  - rewrite splitFrom_hit, join_cons by apply splitFrom_nonempty.
    now rewrite IH.
  - rewrite splitFrom_miss by exact Hc.
    rewrite IH, <- app_assoc. reflexivity.
Qed.

(** The number of rows does not depend on the row being read. *)
Lemma length_splitFrom_row s :
  forall row row',
    length (splitFrom sep 0 row s) = length (splitFrom sep 0 row' s).
Proof.
  induction s as [|t IH|c t Hc IH] using scan_ind; intros row row'.
  - reflexivity.
  - now rewrite !splitFrom_hit.
  - rewrite !splitFrom_miss by exact Hc. apply IH.
Qed.

End SplitScan.

Lemma join_units (s : jsstring) : join (map (fun c => [c]) s) [] = s.
Proof.
  induction s as [|c s IH]; [reflexivity|].
  destruct s as [|d s]; [reflexivity|].
  change (join (map (fun c => [c]) (c :: d :: s)) [])
    with (c :: join (map (fun c => [c]) (d :: s)) []).
  now rewrite IH.
Qed.

(** [split] followed by [join] with the same separator is the identity,
    for every separator. *)
Lemma join_split (s sep : jsstring) : join (split s sep) sep = s.
Proof.
  destruct sep as [|c u] eqn:E.
  - apply join_units.
  - unfold split. rewrite join_splitFrom by discriminate. reflexivity.
Qed.

(** ** Occurrences of the separator and the rows of a concatenation *)

Section Occurrences.

Variable sep : jsstring.
Hypothesis sep_nonempty : sep <> [].

Lemma occursAt_shift (x s : jsstring) i :
  occursAt sep (x ++ s) (length x + i) = occursAt sep s i.
Proof.
  unfold occursAt. rewrite skipn_app.
  replace (length x + i - length x) with i by lia.
  rewrite skipn_all2 by lia. reflexivity.
Qed.

Lemma occursAt_cons c s i :
  occursAt sep (c :: s) (S i) = occursAt sep s i.
Proof. reflexivity. Qed.

Lemma occursAt_bound s i :
  occursAt sep s i = true -> i + length sep <= length s.
Proof.
  unfold occursAt. intros H.
  destruct (Nat.le_gt_cases (i + length sep) (length s)) as [|Hgt];
    [assumption|].
  rewrite (startsWith_short sep) in H; [discriminate|].
  rewrite length_skipn. destruct sep; [contradiction | simpl in *; lia].
Qed.

Lemma occursAt_longer s t i :
  occursAt sep s i = true -> occursAt sep (s ++ t) i = true.
Proof.
  unfold occursAt. intros H. rewrite skipn_app.
  now apply startsWith_longer.
Qed.

(** An occurrence that ends inside [x] does not depend on what follows. *)
Lemma occursAt_inside x y i :
  i + length sep <= length x ->
  occursAt sep (x ++ y) i = occursAt sep x i.
Proof.
  intros H. unfold occursAt.
  rewrite (startsWith_firstn sep (skipn i (x ++ y))).
  rewrite (startsWith_firstn sep (skipn i x)).
  f_equal. rewrite skipn_app, firstn_app, length_skipn.
  replace (length sep - (length x - i)) with 0 by lia.
  rewrite firstn_0. apply app_nil_r.
Qed.

Lemma free_nil : free sep [].
Proof.
  intros i. unfold occursAt. rewrite skipn_nil.
  destruct sep; [contradiction | reflexivity].
Qed.

Lemma free_noneBefore s : free sep s -> noneBefore sep s (length s).
Proof. intros H i _. apply H. Qed.

Lemma free_prefix s t : free sep (s ++ t) -> free sep s.
Proof.
  intros H i. destruct (occursAt sep s i) eqn:E; [|reflexivity].
  rewrite <- (H i). symmetry. now apply occursAt_longer.
Qed.

Lemma free_suffix s t : free sep (s ++ t) -> free sep t.
Proof.
  intros H i. rewrite <- (occursAt_shift s t i). apply H.
Qed.

Lemma free_substring row a b : free sep row -> free sep (substring row a b).
Proof.
  intros H. unfold substring.
  rewrite <- (firstn_skipn a row) in H. apply free_suffix in H.
  rewrite <- (firstn_skipn (b - a) (skipn a row)) in H.
  now apply free_prefix in H.
Qed.

Lemma noStraddle_shift x s n :
  noStraddle sep (x ++ s) (length x + n) -> noStraddle sep s n.
Proof.
  intros H i Hi Hn. rewrite <- (occursAt_shift x s i). apply H; lia.
Qed.

Lemma noneBefore_shift x s n :
  noneBefore sep (x ++ s) (length x + n) -> noneBefore sep s n.
Proof.
  intros H i Hi. rewrite <- (occursAt_shift x s i). apply H; lia.
Qed.

(** A separator of one code unit cannot lie across an offset. *)
Lemma noStraddle_unit s n : length sep = 1 -> noStraddle sep s n.
Proof. intros H i Hi Hn. lia. Qed.

(** The scan walks through a stretch in which no occurrence starts. *)
Lemma scan_through u :
  forall v row,
    noneBefore sep (u ++ v) (length u) ->
    splitFrom sep 0 row (u ++ v) = splitFrom sep 0 (row ++ u) v.
Proof.
  induction u as [|c u IH]; intros v row H.
  - now rewrite app_nil_r.
  - change ((c :: u) ++ v) with (c :: (u ++ v)).
    rewrite splitFrom_miss by (apply (H 0); simpl; lia).
    rewrite IH.
    + now rewrite <- app_assoc.
    + intros i Hi. rewrite <- occursAt_cons with (c := c).
      apply H. simpl. lia.
Qed.

Lemma split_free s : free sep s -> splitFrom sep 0 [] s = [s].
Proof.
  intros H. rewrite <- (app_nil_r s) at 1.
  rewrite scan_through; [reflexivity|].
  rewrite app_nil_r. now apply free_noneBefore.
Qed.

(** The first row of several ends at the leftmost occurrence. *)
Lemma scan_first s :
  forall row r rest,
    splitFrom sep 0 row s = r :: rest -> rest <> [] ->
    exists u v,
      s = u ++ sep ++ v /\ r = row ++ u
      /\ noneBefore sep s (length u) /\ rest = splitFrom sep 0 [] v.
Proof.
  induction s as [|c s IH]; intros row r rest E Hrest.
  - simpl in E. injection E as _ <-. contradiction.
  - destruct (startsWith sep (c :: s)) eqn:Hc.
    + destruct (startsWith_inv _ _ Hc) as [v Hv].
      rewrite Hv, splitFrom_hit in E by assumption.
      injection E as <- <-.
      exists [], v. rewrite app_nil_r. repeat split; auto.
      intros i Hi. simpl in Hi. lia.
    + rewrite splitFrom_miss in E by assumption.
      destruct (IH _ _ _ E Hrest) as (u & v & -> & -> & Hnb & ->).
      exists (c :: u), v. rewrite <- app_assoc. repeat split.
      intros [|i] Hi; [exact Hc|].
      rewrite occursAt_cons. apply Hnb. simpl in Hi. lia.
Qed.

(** A single row is the whole text, and the separator is not in it. *)
Lemma scan_last s :
  forall row r,
    splitFrom sep 0 row s = [r] -> r = row ++ s /\ free sep s.
Proof.
  induction s as [|c s IH]; intros row r E.
  - simpl in E. injection E as <-. rewrite app_nil_r.
    split; [reflexivity | apply free_nil].
  - destruct (startsWith sep (c :: s)) eqn:Hc.
    + destruct (startsWith_inv _ _ Hc) as [v Hv].
      rewrite Hv, splitFrom_hit in E by assumption.
      injection E as _ E. now apply splitFrom_nonempty in E.
    + rewrite splitFrom_miss in E by assumption.
      destruct (IH _ _ E) as [-> Hf]. rewrite <- app_assoc.
      split; [reflexivity|].
      intros [|i]; [exact Hc | rewrite occursAt_cons; apply Hf].
Qed.

End Occurrences.

Lemma split_scan (sep s : jsstring) :
  sep <> [] -> split s sep = splitFrom sep 0 [] s.
Proof. destruct sep; [contradiction | reflexivity]. Qed.

Section RowsOfPieces.

Variable sep : jsstring.
Hypothesis sep_nonempty : sep <> [].

(** When no occurrence lies across the seam, the rows of [x ++ y] are
    those of [x] and those of [y], the last row of [x] running into the
    first of [y]. *)
Lemma length_splitFrom_app x :
  forall y row,
    noStraddle sep (x ++ y) (length x) ->
    length (splitFrom sep 0 row (x ++ y)) + 1
    = length (splitFrom sep 0 row x) + length (splitFrom sep 0 [] y).
Proof.
  pattern x. revert x. apply (scan_ind sep_nonempty);
    [intros y row H | intros t IH y row H | intros c t Hc IH y row H].
  - simpl. rewrite (length_splitFrom_row sep_nonempty y row []). lia.
  - rewrite <- app_assoc, !splitFrom_hit by assumption. simpl.
    rewrite <- IH; [lia|].
    rewrite <- app_assoc, length_app in H.
    now apply noStraddle_shift in H.
  - assert (Hcy : startsWith sep ((c :: t) ++ y) = false).
    { destruct (startsWith sep ((c :: t) ++ y)) eqn:E; [|reflexivity].
      change (occursAt sep ((c :: t) ++ y) 0 = true) in E.
      destruct (Nat.le_gt_cases (length sep) (length (c :: t))) as [Hle|Hgt].
      - rewrite occursAt_inside in E by (simpl in *; lia).
        unfold occursAt in E. simpl skipn in E. congruence.
      - rewrite H in E; [discriminate | simpl; lia | simpl in *; lia]. }
    change ((c :: t) ++ y) with (c :: (t ++ y)) in *.
    rewrite !splitFrom_miss by assumption.
    apply IH. intros i Hi Hn.
    rewrite <- occursAt_cons with (c := c). apply H; simpl; lia.
Qed.

Lemma rowCount_app x y :
  noStraddle sep (x ++ y) (length x) ->
  rowCount (x ++ y) sep + 1 = rowCount x sep + rowCount y sep.
Proof.
  intros H. unfold rowCount.
  rewrite !split_scan by assumption.
  now apply length_splitFrom_app.
Qed.

(** No row contains the separator. *)
Lemma row_free before :
  forall s row after,
    splitFrom sep 0 [] s = before ++ row :: after -> free sep row.
Proof.
  induction before as [|b before IH]; intros s row after E.
  - destruct after as [|a after].
    + now destruct (scan_last sep_nonempty _ _ E) as [-> Hf].
    + destruct (scan_first sep_nonempty _ _ E) as (u & v & -> & Hr & Hnb & _);
        [discriminate|].
      simpl in Hr. subst row.
      intros i. destruct (occursAt sep u i) eqn:Hu; [|reflexivity].
      pose proof (occursAt_bound sep_nonempty _ _ Hu) as Hi.
      rewrite <- (Hnb i).
      * symmetry. now apply occursAt_longer.
      * destruct sep; [contradiction | simpl in *; lia].
  - destruct (scan_first sep_nonempty _ _ E) as (u & v & _ & _ & _ & Hv).
    + now destruct before.
    + symmetry in Hv. exact (IH _ _ _ Hv).
Qed.

(** The rows after a cut inside a row are the rows of the text after
    the cut. *)
Lemma split_after_cut before :
  forall s pre q after,
    splitFrom sep 0 [] s = before ++ (pre ++ q) :: after ->
    splitFrom sep 0 [] (join (q :: after) sep) = q :: after.
Proof.
  induction before as [|b before IH]; intros s pre q after E.
  - destruct after as [|a after].
    + apply split_free. apply free_suffix with (s := pre).
      exact (row_free [] _ _ _ E).
    + destruct (scan_first sep_nonempty _ _ E) as (u & v & -> & Hu & Hnb & Hv);
        [discriminate|].
      simpl in Hu. subst u.
      rewrite join_cons by discriminate.
      rewrite Hv, join_splitFrom by assumption. simpl app.
      rewrite scan_through.
      * now rewrite splitFrom_hit.
      * rewrite <- app_assoc, length_app in Hnb.
        now apply noneBefore_shift in Hnb.
  - destruct (scan_first sep_nonempty _ _ E) as (u & v & _ & _ & _ & Hv).
    + now destruct before.
    + symmetry in Hv. exact (IH _ _ _ _ Hv).
Qed.

(** The rows before a cut inside a row are the rows of the text before
    the cut. *)
Lemma split_before_cut before :
  forall s p rest after,
    splitFrom sep 0 [] s = before ++ (p ++ rest) :: after ->
    splitFrom sep 0 [] (join (before ++ [p]) sep) = before ++ [p].
Proof.
  induction before as [|b before IH]; intros s p rest after E.
  - apply split_free. apply free_prefix with (t := rest).
    exact (row_free [] _ _ _ E).
  - destruct (scan_first sep_nonempty _ _ E) as (u & v & -> & Hu & Hnb & Hv).
    + now destruct before.
    + simpl in Hu. subst u. symmetry in Hv.
      change ((b :: before) ++ [p]) with (b :: (before ++ [p])).
      rewrite join_cons by now destruct before.
      rewrite scan_through.
      * rewrite splitFrom_hit by assumption.
        simpl. f_equal. exact (IH _ _ _ _ Hv).
      * intros i Hi.
        rewrite app_assoc, occursAt_inside
          by (rewrite length_app; lia).
        rewrite <- (occursAt_inside sep (b ++ sep) v)
          by (rewrite length_app; lia).
        rewrite <- app_assoc. now apply Hnb.
Qed.

End RowsOfPieces.

(** Joining rows around a cut inside one of them. *)
Lemma join_cut before x y after e :
  join (before ++ (x ++ y) :: after) e
  = join (before ++ [x]) e ++ join (y :: after) e.
Proof.
  induction before as [|b before IH].
  - destruct after; simpl; [reflexivity | now rewrite <- app_assoc].
  - change ((b :: before) ++ (x ++ y) :: after)
      with (b :: (before ++ (x ++ y) :: after)).
    change ((b :: before) ++ [x]) with (b :: (before ++ [x])).
    rewrite !join_cons by now destruct before.
    rewrite IH, <- !app_assoc. reflexivity.
Qed.

(** A row cut at two offsets. *)
Lemma row_cut (row : jsstring) (a b : nat) :
  a <= b ->
  row = firstn a row ++ substring row a b ++ skipn b row.
Proof.
  intros H. unfold substring.
  rewrite <- (firstn_skipn a row) at 1. f_equal.
  rewrite <- (firstn_skipn (b - a) (skipn a row)) at 1. f_equal.
  rewrite skipn_skipn. f_equal. lia.
Qed.

(** Part of a row holds no terminator. *)
Lemma occurrences_in_row (E : jsstring) before p R q after text :
  E <> [] ->
  split text E = before ++ (p ++ R ++ q) :: after ->
  occurrences E R = 0.
Proof.
  intros HE Hs. rewrite split_scan in Hs by assumption.
  unfold occurrences. rewrite split_scan by assumption.
  rewrite split_free; [reflexivity|].
  apply free_prefix with (t := q). apply free_suffix with (s := p).
  exact (row_free HE _ _ _ _ Hs).
Qed.

Lemma rowCount_positive (E s : jsstring) : E <> [] -> 0 < rowCount s E.
Proof.
  intros HE. unfold rowCount. rewrite split_scan by assumption.
  pose proof (@splitFrom_nonempty E 0 [] s).
  destruct (splitFrom E 0 [] s); [contradiction | simpl; lia].
Qed.

(** The row count after a replacement within one row, from the row
    counts of the three pieces of the result. *)
Lemma rowCount_replaced (E : jsstring) before p R q after N text :
  E <> [] ->
  split text E = before ++ (p ++ R ++ q) :: after ->
  let result := join (before ++ (p ++ N ++ q) :: after) E in
  let a := length (join (before ++ [p]) E) in
  noStraddle E result a ->
  noStraddle E result (a + length N) ->
  rowCount result E = rowCount text E + occurrences E N.
Proof.
  intros HE Hs result a H1 H2.
  rewrite split_scan in Hs by assumption.
  assert (HA : rowCount (join (before ++ [p]) E) E = length before + 1).
  { unfold rowCount. rewrite split_scan by assumption.
    rewrite (split_before_cut HE _ _ _ _ _ Hs). apply length_app. }
  assert (HB : rowCount (join (q :: after) E) E = 1 + length after).
  { unfold rowCount. rewrite split_scan by assumption.
    rewrite app_assoc in Hs.
    now rewrite (split_after_cut HE _ _ _ _ _ Hs). }
  assert (HT : rowCount text E = length before + 1 + length after).
  { unfold rowCount. rewrite split_scan, Hs by assumption.
    rewrite length_app. simpl. lia. }
  assert (Hres : result
                 = join (before ++ [p]) E ++ N ++ join (q :: after) E).
  { unfold result. rewrite join_cut. f_equal.
    exact (join_cut [] N q after E). }
  rewrite Hres in H1, H2 |- *. unfold a in H1, H2.
  pose proof (rowCount_app HE _ _ H1) as C1.
  apply noStraddle_shift in H2.
  pose proof (rowCount_app HE _ _ H2) as C2.
  pose proof (rowCount_positive N HE).
  unfold occurrences. fold (rowCount N E). lia.
Qed.

(** ** The properties stated by the specification *)

(** C1 (the code departs from the claim).  On a range within one row the
    claim asks for the substring between [start.character] and
    [end.character]; the code returns the row from [start.character] to
    its end.  For "hello world" and the range (0,0)-(0,5) it returns
    "hello world", not "hello". *)
Theorem C1_single_line_slice_runs_to_row_end :
  sliceTextByRange (js "hello world") (range 0 0 0 5) (Some [LF]) None
  = Ok (Str (js "hello world"))
  /\ sliceTextByRange (js "hello world") (range 0 0 0 5) (Some [LF]) (Some true)
     = Ok (Rows [js "hello world"])
  /\ specSpan (split (js "hello world") [LF]) (range 0 0 0 5) [LF] = js "hello"
  /\ js "hello world" <> js "hello".
Proof.
  repeat split; try reflexivity. discriminate.
Qed.

(** C2 (the code departs from the claim).  On a range over several rows
    the code keeps the rows strictly between the two lines, puts the
    suffix of the end row on a row of its own and drops every row after
    [end.line].  Deleting (0,1)-(2,2) from "abc\ndef\nghi" gives
    "a\ndef\ni", not "ai"; and a row after the range is lost. *)
Theorem C2_multi_line_replace_keeps_middle_rows :
  replaceTextByRange (js "abc" ++ LF :: js "def" ++ LF :: js "ghi")
                     (range 0 1 2 2) [] (Some [LF])
  = Ok (js "a" ++ LF :: js "def" ++ LF :: js "i")
  /\ js "a" ++ LF :: js "def" ++ LF :: js "i" <> js "ai"
  /\ replaceTextByRange (js "ab" ++ LF :: js "cd" ++ LF :: js "ef")
                        (range 0 1 1 1) (js "X") (Some [LF])
     = Ok (js "aX" ++ LF :: js "d").
Proof.
  repeat split; try reflexivity. discriminate.
Qed.

(** C3, counterexample.  The range (0,9)-(0,9) is out of range in
    "short" (the row has 5 code units), yet both operations return
    normally: the slice is the empty string and the replacement appends
    at the end of the row. *)
Lemma C3_counterexample :
  outOfRange (split (js "short") defaultEol) (range 0 9 0 9) = true
  /\ sliceTextByRange (js "short") (range 0 9 0 9) None None = Ok (Str [])
  /\ replaceTextByRange (js "short") (range 0 9 0 9) (js "X") None
     = Ok (js "shortX").
Proof. repeat split. Qed.

(** C3, as the code has it.  There is no bounds check and no OutOfRange
    error.  A call throws, with the TypeError of reading a row that does
    not exist, exactly when [start.line] is not the index of a row or,
    the two lines being different, [end.line] is not; otherwise it
    returns normally whatever the character indices, which [slice]
    clamps to the length of the row.  The slice of "short" at
    (5,0)-(5,1) throws and returns no empty string. *)
Theorem C3_only_a_missing_row_throws :
  forall text r newText eol rr,
    let lines := split text (orDefault defaultEol eol) in
    (if rowMissing lines r
     then sliceTextByRange text r eol rr = Throw TypeError
          /\ replaceTextByRange text r newText eol = Throw TypeError
     else throws (sliceTextByRange text r eol rr) = false
          /\ throws (replaceTextByRange text r newText eol) = false)
    /\ (forall (row : jsstring) (k : nat),
          slice row (Z.of_nat (length row + k)) None = []
          /\ slice row 0 (Some (Z.of_nat (length row + k))) = row)
    /\ sliceTextByRange (js "short") (range 5 0 5 1) None None
       = Throw TypeError.
Proof.
  intros text r newText eol rr lines. repeat split.
  - pose proof (slice_throws text r eol rr) as Hs.
    pose proof (replace_throws text r newText eol) as Hr.
    fold lines in Hs, Hr.
    destruct (rowMissing lines r); [|now split].
    destruct (sliceTextByRange text r eol rr) as [v|[]]; [discriminate|].
    destruct (replaceTextByRange text r newText eol) as [v|[]];
      [discriminate|].
    now split.
  - apply slice_from_beyond. lia.
  - apply slice_upto_beyond. lia.
Qed.

(** C4, counterexample.  The range (2,0)-(1,0) has its start after its
    end, and "abc\ndef\nghi" has rows 1 and 2; neither operation rejects
    it. *)
Lemma C4_counterexample :
  let text := js "abc" ++ LF :: js "def" ++ LF :: js "ghi" in
  inverted (range 2 0 1 0) = true
  /\ sliceTextByRange text (range 2 0 1 0) None None
     = Ok (Str (js "ghi" ++ [LF]))
  /\ replaceTextByRange text (range 2 0 1 0) (js "X") None
     = Ok (js "abc" ++ LF :: js "def" ++ LF :: js "X" ++ LF :: js "def").
Proof. repeat split. Qed.

(** C4, as the code has it.  The order of [start] and [end] is never
    examined and there is no InvalidRange error.  When the rows an
    inverted range names exist, both operations return normally:
    the slice is the start row from [start.character] on, followed, when
    the lines differ, by the first [end.character] code units of the end
    row, with no row in between. *)
Theorem C4_inverted_range_is_processed :
  forall text r newText eol,
    let E := orDefault defaultEol eol in
    let lines := split text E in
    inverted r = true ->
    rowMissing lines r = false ->
    exists startRow endRow,
      index lines (line (start r)) = Some startRow
      /\ index lines (line (end_ r)) = Some endRow
      /\ sliceTextByRange text r eol (Some true)
         = Ok (Rows
                 (if (line (start r) =? line (end_ r))%Z
                  then [slice startRow (character (start r)) None]
                  else [slice startRow (character (start r)) None;
                        slice endRow 0 (Some (character (end_ r)))]))
      /\ throws (replaceTextByRange text r newText eol) = false.
Proof.
  intros text r newText eol E lines Hinv Hrows.
  assert (Hrep : throws (replaceTextByRange text r newText eol) = false)
    by (rewrite replace_throws; exact Hrows).
  unfold rowMissing in Hrows. unfold inverted, ordered in Hinv.
  unfold sliceTextByRange. fold E. fold lines.
  destruct (index lines (line (start r))) as [srow|] eqn:Hs;
    [|discriminate].
  simpl in Hrows |- *.
  destruct (Z.eqb_spec (line (start r)) (line (end_ r))) as [Heq|Hne].
  - exists srow, srow. rewrite <- Heq. auto.
  - simpl in Hrows.
    destruct (index lines (line (end_ r))) as [erow|] eqn:He;
      [|discriminate].
    exists srow, erow. simpl.
    destruct (Z.ltb_spec (line (start r)) (line (end_ r)));
      [discriminate|].
    destruct (index_Some _ _ He) as [Hel _].
    rewrite slice_crossed by lia.
    auto.
Qed.

Lemma C4_inverted_range_is_processed_witness :
  inverted (range 1 0 0 1) = true
  /\ rowMissing (split (js "a" ++ LF :: js "b") [LF]) (range 1 0 0 1) = false
  /\ exists startRow endRow,
    index (split (js "a" ++ LF :: js "b") [LF]) 1 = Some startRow
    /\ index (split (js "a" ++ LF :: js "b") [LF]) 0 = Some endRow
    /\ sliceTextByRange (js "a" ++ LF :: js "b") (range 1 0 0 1)
                        (Some [LF]) (Some true)
       = Ok (Rows [slice startRow 0 None; slice endRow 0 (Some 1%Z)])
    /\ throws (replaceTextByRange (js "a" ++ LF :: js "b") (range 1 0 0 1)
                                  (js "X") (Some [LF])) = false.
Proof.
  split; [reflexivity|]. split; [reflexivity|].
  apply (C4_inverted_range_is_processed
           (js "a" ++ LF :: js "b") (range 1 0 0 1) (js "X") (Some [LF]));
    reflexivity.
Defined.

(** C5 (the code departs from the claim).  Replacing a range by its own
    slice does not give the buffer back.  On one row the slice runs to
    the end of the row (see C1), so the tail of the row is doubled; over
    several rows the replacement keeps the middle rows next to their
    copy in the slice and drops the rows after the range (see C2). *)
Theorem C5_replace_by_own_slice_differs :
  let T := js "hello world" in
  let U := js "abc" ++ LF :: js "def" ++ LF :: js "ghi" in
  sliceTextByRange T (range 0 0 0 5) (Some [LF]) None = Ok (Str T)
  /\ replaceTextByRange T (range 0 0 0 5) T (Some [LF])
     = Ok (js "hello world world")
  /\ js "hello world world" <> T
  /\ sliceTextByRange U (range 0 1 2 2) (Some [LF]) None
     = Ok (Str (js "bc" ++ LF :: js "def" ++ LF :: js "gh"))
  /\ replaceTextByRange U (range 0 1 2 2)
                        (js "bc" ++ LF :: js "def" ++ LF :: js "gh") (Some [LF])
     = Ok (js "abc" ++ LF :: js "def" ++ LF :: js "gh" ++ LF :: js "def"
              ++ LF :: js "i")
  /\ js "abc" ++ LF :: js "def" ++ LF :: js "gh" ++ LF :: js "def"
        ++ LF :: js "i" <> U.
Proof.
  repeat split; try reflexivity; discriminate.
Qed.

(** C6.  On a valid position, replacing the empty range there by the
    empty string gives the buffer back. *)
Theorem C6_empty_replacement_is_identity :
  forall text r eol,
    let E := orDefault defaultEol eol in
    validRange (split text E) r = true ->
    start r = end_ r ->
    replaceTextByRange text r [] eol = Ok text.
Proof.
  intros text r eol E Hv Heq.
  assert (Hl : line (start r) = line (end_ r)) by now rewrite Heq.
  rewrite replace_single_line by assumption.
  fold E. rewrite <- Heq. rewrite app_nil_l, firstn_skipn.
  destruct (validRange_inv _ _ Hv) as (Hs & _ & _).
  destruct (inBounds_row _ _ Hs) as (row & Hi & Hn & _ & _).
  destruct (index_Some _ _ Hi) as [_ Hnth].
  rewrite Hn.
  transitivity (Ok (join (split text E) E)).
  - do 2 f_equal. symmetry. exact (nth_error_cut _ _ Hnth).
  - now rewrite join_split.
Qed.

Lemma C6_empty_replacement_is_identity_witness :
  let text := js "ab" ++ LF :: js "cd" in
  validRange (split text [LF]) (range 1 1 1 1) = true
  /\ range 1 1 1 1 = range 1 1 1 1
  /\ replaceTextByRange text (range 1 1 1 1) [] (Some [LF]) = Ok text.
Proof.
  intros text. split; [reflexivity|]. split; [reflexivity|].
  apply (C6_empty_replacement_is_identity text (range 1 1 1 1) (Some [LF]));
    reflexivity.
Defined.

(** C7, counterexample.  With the terminator "\r\n", inserting "\nX"
    after the "\r" that ends the only row of "a\r" completes a
    terminator: [newText] holds none, the removed span holds none, and
    the row count goes from 1 to 2. *)
Lemma C7_counterexample :
  let text := js "a" ++ [CR] in
  let E := [CR; LF] in
  let newText := LF :: js "X" in
  let r := range 0 2 0 2 in
  validRange (split text E) r = true
  /\ occurrences E newText = 0
  /\ occurrences E (specSpan (split text E) r E) = 0
  /\ replaceTextByRange text r newText (Some E)
     = Ok (js "a" ++ CR :: LF :: js "X")
  /\ rowCount text E = 1
  /\ rowCount (js "a" ++ CR :: LF :: js "X") E = 2.
Proof. repeat split. Qed.

(** C7, for a range within one row.  For a non-empty terminator and a
    valid range whose start and end lie on the same row, the removed
    span holds no terminator ([m = 0]) and the replacement changes the
    row count by exactly the number [k] of terminators in [newText],
    provided no occurrence of the terminator in the result lies across
    either end of the inserted [newText]; this proviso always holds when
    the terminator is a single code unit, such as the default "\n". *)
Theorem C7_row_count_single_line :
  forall text r newText eol,
    let E := orDefault defaultEol eol in
    let lines := split text E in
    let a := offsetOf lines E (Z.to_nat (line (start r)))
                      (Z.to_nat (character (start r))) in
    let k := occurrences E newText in
    let m := occurrences E (specSpan lines r E) in
    E <> [] ->
    validRange lines r = true ->
    line (start r) = line (end_ r) ->
    exists result,
      replaceTextByRange text r newText eol = Ok result
      /\ m = 0
      /\ (noStraddle E result a ->
          noStraddle E result (a + length newText) ->
          (Z.of_nat (rowCount result E)
           = Z.of_nat (rowCount text E) + Z.of_nat k - Z.of_nat m)%Z)
      /\ (length E = 1 ->
          (Z.of_nat (rowCount result E)
           = Z.of_nat (rowCount text E) + Z.of_nat k - Z.of_nat m)%Z).
Proof.
  intros text r newText eol E lines a k m HE Hv Hl.
  destruct (validRange_inv _ _ Hv) as (Hs & He & [Hlt|[_ Hc]]); [lia|].
  destruct (inBounds_row _ _ Hs) as (row & Hi & Hn & _ & Hsc).
  destruct (inBounds_row _ _ He) as (row' & _ & Hn' & _ & Hec).
  rewrite <- Hl, Hn in Hn'. subst row'.
  destruct (index_Some _ _ Hi) as [_ Hnth].
  set (sl := Z.to_nat (line (start r))) in *.
  set (sc := Z.to_nat (character (start r))) in *.
  set (ec := Z.to_nat (character (end_ r))).
  assert (Hcut : split text E
                 = firstn sl lines
                   ++ (firstn sc row ++ substring row sc ec ++ skipn ec row)
                   :: skipn (S sl) lines).
  { rewrite <- row_cut by (unfold sc, ec; lia).
    exact (nth_error_cut _ _ Hnth). }
  assert (Hm : specSpan lines r E = substring row sc ec).
  { unfold specSpan, specSpanRows. rewrite <- Hl, Z.eqb_refl.
    fold sl. rewrite Hn. reflexivity. }
  assert (Ha : a = length (join (firstn sl lines ++ [firstn sc row]) E)).
  { unfold a, offsetOf. now rewrite Hn. }
  assert (Hm0 : m = 0).
  { unfold m. rewrite Hm. eapply occurrences_in_row; [exact HE | exact Hcut]. }
  assert (Hgen :
    forall result,
      result = join (firstn sl lines
                     ++ (firstn sc row ++ newText ++ skipn ec row)
                     :: skipn (S sl) lines) E ->
      noStraddle E result a ->
      noStraddle E result (a + length newText) ->
      (Z.of_nat (rowCount result E)
       = Z.of_nat (rowCount text E) + Z.of_nat k - Z.of_nat m)%Z).
  { intros result -> H1 H2. rewrite Ha in H1, H2.
    assert (Hrc : rowCount
                    (join (firstn sl lines
                           ++ (firstn sc row ++ newText ++ skipn ec row)
                           :: skipn (S sl) lines) E) E
                  = rowCount text E + occurrences E newText)
      by exact (@rowCount_replaced E _ _ _ _ _ newText text HE Hcut H1 H2).
    rewrite Hrc, Hm0. unfold k. lia. }
  exists (join (firstn sl lines
                ++ (firstn sc row ++ newText ++ skipn ec row)
                :: skipn (S sl) lines) E).
  split.
  { rewrite replace_single_line by assumption.
    fold E. fold lines. fold sl. rewrite Hn. reflexivity. }
  split; [exact Hm0|]. split.
  - now apply Hgen.
  - intros H1. apply Hgen; [reflexivity | |]; now apply noStraddle_unit.
Qed.

Lemma C7_row_count_single_line_witness :
  let E := [CR; LF] in
  let text := js "ab" ++ E ++ js "cd" in
  let newText := js "X" ++ E ++ js "Y" in
  let result := js "aX" ++ E ++ js "Y" ++ E ++ js "cd" in
  E <> []
  /\ validRange (split text E) (range 0 1 0 2) = true
  /\ replaceTextByRange text (range 0 1 0 2) newText (Some E) = Ok result
  /\ noStraddle E result 1
  /\ noStraddle E result (1 + length newText)
  /\ (Z.of_nat (rowCount result E) = 2 + 1 - 0)%Z.
Proof.
  intros E text newText result.
  assert (H1 : noStraddle E result 1).
  { intros i Hi Hn. assert (i = 0) as -> by lia. reflexivity. }
  assert (H2 : noStraddle E result (1 + length newText)).
  { intros i Hi Hn. simpl in Hi, Hn. assert (i = 4) as -> by lia.
    reflexivity. }
  split; [discriminate|]. split; [reflexivity|]. split; [reflexivity|].
  split; [exact H1|]. split; [exact H2|].
  destruct (C7_row_count_single_line text (range 0 1 0 2) newText (Some E))
    as (res & Hres & _ & Hgen & _);
    [discriminate | reflexivity | reflexivity |].
  injection Hres as <-.
  exact (Hgen H1 H2).
Defined.

(** C8.  On a valid range over several rows, [sliceTextByRange] returns
    the sequence made of the start row from [start.character] to its
    end, every row strictly between [start.line] and [end.line] as it
    is, and the first [end.character] code units of the end row: as that
    sequence when [returnRows] is true, joined with the terminator
    otherwise.  For "line1\nline2\nline3" and (0,2)-(2,3) the rows are
    "ne1", "line2", "lin". *)
Theorem C8_multi_line_slice :
  (forall text r eol,
     let E := orDefault defaultEol eol in
     let lines := split text E in
     let sl := Z.to_nat (line (start r)) in
     let el := Z.to_nat (line (end_ r)) in
     validRange lines r = true ->
     (line (start r) < line (end_ r))%Z ->
     exists rs,
       sliceTextByRange text r eol (Some true) = Ok (Rows rs)
       /\ sliceTextByRange text r eol (Some false) = Ok (Str (join rs E))
       /\ sliceTextByRange text r eol None = Ok (Str (join rs E))
       /\ length rs = el - sl + 1
       /\ nth_error rs 0
          = Some (skipn (Z.to_nat (character (start r))) (nth sl lines []))
       /\ (forall i, sl < i < el -> nth_error rs (i - sl) = nth_error lines i)
       /\ nth_error rs (el - sl)
          = Some (firstn (Z.to_nat (character (end_ r))) (nth el lines [])))
  /\ sliceTextByRange (js "line1" ++ LF :: js "line2" ++ LF :: js "line3")
                      (range 0 2 2 3) (Some [LF]) (Some true)
     = Ok (Rows [js "ne1"; js "line2"; js "lin"])
  /\ sliceTextByRange (js "line1" ++ LF :: js "line2" ++ LF :: js "line3")
                      (range 0 2 2 3) (Some [LF]) None
     = Ok (Str (js "ne1" ++ LF :: js "line2" ++ LF :: js "lin")).
Proof.
  split; [|split; reflexivity].
  intros text r eol E lines sl el Hv Hlt.
  destruct (validRange_inv _ _ Hv) as (Hs & He & _).
  destruct (inBounds_row _ _ Hs) as (srow & His & Hns & Hsl & Hsc).
  destruct (inBounds_row _ _ He) as (erow & Hie & Hne & Hel & Hec).
  fold sl in Hns. fold el in Hne.
  set (mid := firstn (el - sl - 1) (skipn (sl + 1) lines)).
  assert (Hmid : slice lines (line (start r) + 1) (Some (line (end_ r)))
                 = mid).
  { rewrite slice_between by lia. unfold mid, sl, el. f_equal; [lia|].
    f_equal. lia. }
  assert (Hlen : length mid = el - sl - 1).
  { unfold mid. rewrite length_firstn, length_skipn. unfold sl, el. lia. }
  exists (skipn (Z.to_nat (character (start r))) srow
          :: mid ++ [firstn (Z.to_nat (character (end_ r))) erow]).
  unfold sliceTextByRange. fold E. fold lines.
  rewrite His, Hie. simpl bind.
  destruct (Z.eqb_spec (line (start r)) (line (end_ r))); [lia|].
  rewrite Hmid, slice_from, slice_upto by lia.
  rewrite Hns, Hne.
  repeat split.
  - simpl. rewrite length_app, Hlen. simpl. unfold sl, el. lia.
  - intros i Hi.
    replace (i - sl) with (S (i - sl - 1)) by lia. simpl.
    rewrite nth_error_app1 by lia.
    unfold mid. rewrite nth_error_window by lia. f_equal. lia.
  - replace (el - sl) with (S (length mid)) by (unfold sl, el in *; lia).
    simpl. rewrite nth_error_app2 by lia. now rewrite Nat.sub_diag.
Qed.

Lemma C8_multi_line_slice_witness :
  let text := js "ab" ++ LF :: js "cd" ++ LF :: js "ef" in
  validRange (split text [LF]) (range 0 1 2 1) = true
  /\ (0 < 2)%Z
  /\ exists rs,
       sliceTextByRange text (range 0 1 2 1) (Some [LF]) (Some true)
       = Ok (Rows rs)
       /\ nth_error rs 1 = Some (js "cd").
Proof.
  intros text. split; [reflexivity|]. split; [reflexivity|].
  destruct (proj1 C8_multi_line_slice text (range 0 1 2 1) (Some [LF])
              eq_refl eq_refl)
    as (rs & H1 & _ & _ & _ & _ & Hmid & _).
  exists rs. split; [exact H1|].
  exact (Hmid 1 (conj (le_n 1) (le_n 2))).
Defined.

(** C9.  On a valid range within one row, [replaceTextByRange] rebuilds
    that row as its prefix up to [start.character], then [newText], then
    its suffix from [end.character], and joins it with the rows before
    and after, unchanged, using the terminator.  Replacing (0,0)-(0,5)
    of "hello world" by "goodbye" gives "goodbye world". *)
Theorem C9_single_line_replace :
  (forall text r newText eol,
     let E := orDefault defaultEol eol in
     let lines := split text E in
     let sl := Z.to_nat (line (start r)) in
     let row := nth sl lines [] in
     validRange lines r = true ->
     line (start r) = line (end_ r) ->
     replaceTextByRange text r newText eol
     = Ok (join (firstn sl lines
                 ++ (firstn (Z.to_nat (character (start r))) row
                     ++ newText
                     ++ skipn (Z.to_nat (character (end_ r))) row)
                 :: skipn (S sl) lines) E))
  /\ replaceTextByRange (js "hello world") (range 0 0 0 5) (js "goodbye")
                        (Some [LF])
     = Ok (js "goodbye world").
Proof.
  split; [|reflexivity].
  intros text r newText eol. apply replace_single_line.
Qed.

Lemma C9_single_line_replace_witness :
  validRange (split (js "ab" ++ LF :: js "cdef") [LF]) (range 1 1 1 3) = true
  /\ replaceTextByRange (js "ab" ++ LF :: js "cdef") (range 1 1 1 3) (js "X")
                        (Some [LF])
     = Ok (js "ab" ++ LF :: js "cXf").
Proof.
  split; [reflexivity|].
  exact (proj1 C9_single_line_replace (js "ab" ++ LF :: js "cdef")
           (range 1 1 1 3) (js "X") (Some [LF]) eq_refl eq_refl).
Defined.

(** C10.  For every line terminator (a value of the [EOL] type of the
    source, which is not the empty string), the empty buffer has exactly
    one row, the empty one, so the range (0,0)-(0,0) is addressable in
    it: the slice there is the empty string (the one-row sequence
    holding it when [returnRows] is true) and replacing that range by
    [newText] gives [newText]. *)
Theorem C10_empty_buffer :
  forall eol rr newText,
    let E := orDefault defaultEol eol in
    E <> [] ->
    rowCount [] E = 1
    /\ split [] E = [[]]
    /\ sliceTextByRange [] (range 0 0 0 0) eol rr
       = Ok (if orDefault false rr then Rows [[]] else Str [])
    /\ replaceTextByRange [] (range 0 0 0 0) newText eol = Ok newText.
Proof.
  intros eol rr newText E HE.
  assert (Hs : split [] E = [[]]) by (destruct E; [contradiction|reflexivity]).
  repeat split.
  - unfold rowCount. now rewrite Hs.
  - exact Hs.
  - unfold sliceTextByRange. fold E. rewrite Hs. reflexivity.
  - unfold replaceTextByRange. fold E. rewrite Hs. simpl.
    unfold slice; simpl. now rewrite app_nil_r.
Qed.

Lemma C10_empty_buffer_witness :
  [CR; LF] <> []
  /\ sliceTextByRange [] (range 0 0 0 0) (Some [CR; LF]) (Some true)
     = Ok (Rows [[]])
  /\ replaceTextByRange [] (range 0 0 0 0) (js "new") (Some [CR; LF])
     = Ok (js "new").
Proof.
  split; [discriminate|].
  destruct (C10_empty_buffer (Some [CR; LF]) (Some true) (js "new"))
    as (_ & _ & H1 & H2); [discriminate|].
  split; [exact H1 | exact H2].
Defined.

(** ** Further properties of [sliceTextByRange] and [replaceTextByRange] *)

(** X1.  The string form of a slice is the rows form joined with the
    terminator, on every input; the two forms throw together. *)
Theorem X1_slice_string_is_joined_rows :
  forall text r eol,
    let E := orDefault defaultEol eol in
    (exists rs,
        rs <> []
        /\ sliceTextByRange text r eol (Some true) = Ok (Rows rs)
        /\ sliceTextByRange text r eol (Some false) = Ok (Str (join rs E))
        /\ sliceTextByRange text r eol None = Ok (Str (join rs E)))
    \/ (sliceTextByRange text r eol (Some true) = Throw TypeError
        /\ sliceTextByRange text r eol (Some false) = Throw TypeError
        /\ sliceTextByRange text r eol None = Throw TypeError).
Proof.
  intros text r eol E. unfold sliceTextByRange. fold E.
  destruct (index (split text E) (line (start r))) as [srow|];
    [|right; repeat split].
  simpl bind.
  destruct (line (start r) =? line (end_ r))%Z.
  - left. eexists. repeat split. discriminate.
  - destruct (index (split text E) (line (end_ r))) as [erow|];
      [|right; repeat split].
    left. eexists. repeat split. discriminate.
Qed.

(** X2.  On a valid range within one row the slice is the row from
    [start.character] to the end of the row; [end.character] has no
    effect on it. *)
Theorem X2_single_line_slice_is_row_tail :
  forall text r eol,
    let E := orDefault defaultEol eol in
    let lines := split text E in
    let tail := skipn (Z.to_nat (character (start r)))
                      (nth (Z.to_nat (line (start r))) lines []) in
    validRange lines r = true ->
    line (start r) = line (end_ r) ->
    sliceTextByRange text r eol None = Ok (Str tail)
    /\ sliceTextByRange text r eol (Some true) = Ok (Rows [tail])
    /\ forall c,
         sliceTextByRange text (mkRange (start r) (mkPosition (line (end_ r)) c))
                          eol None
         = Ok (Str tail).
Proof.
  intros text r eol E lines tail Hv Hl.
  pose proof (slice_single_line text r eol None Hv Hl) as H0.
  pose proof (slice_single_line text r eol (Some true) Hv Hl) as H1.
  repeat split; [exact H0 | exact H1 |].
  intros c. destruct r as [[sl sc] [el ec]].
  simpl in Hl. subst el.
  etransitivity; [|exact H0].
  exact (slice_single_line_ignores_end text sl sc c ec eol None).
Qed.

Lemma X2_single_line_slice_is_row_tail_witness :
  let text := js "ab" ++ LF :: js "cdef" in
  validRange (split text [LF]) (range 1 1 1 2) = true
  /\ sliceTextByRange text (range 1 1 1 2) (Some [LF]) None
     = Ok (Str (js "def")).
Proof.
  intros text. split; [reflexivity|].
  exact (proj1 (X2_single_line_slice_is_row_tail text (range 1 1 1 2)
                  (Some [LF]) eq_refl eq_refl)).
Defined.

(** X3.  On a valid range over several rows the replacement is the join
    of: the rows before [start.line]; the start row's prefix followed by
    [newText]; the rows strictly between the two lines, kept; and the
    end row's suffix from [end.character], as a row of its own.  No row
    after [end.line] is part of it. *)
Theorem X3_multi_line_replace_result :
  forall text r newText eol,
    let E := orDefault defaultEol eol in
    let lines := split text E in
    let sl := Z.to_nat (line (start r)) in
    let el := Z.to_nat (line (end_ r)) in
    validRange lines r = true ->
    (line (start r) < line (end_ r))%Z ->
    exists rows,
      replaceTextByRange text r newText eol = Ok (join rows E)
      /\ length rows = el + 1
      /\ (forall i, i < sl -> nth_error rows i = nth_error lines i)
      /\ nth_error rows sl
         = Some (firstn (Z.to_nat (character (start r))) (nth sl lines [])
                 ++ newText)
      /\ (forall i, sl < i < el -> nth_error rows i = nth_error lines i)
      /\ nth_error rows el
         = Some (skipn (Z.to_nat (character (end_ r))) (nth el lines [])).
Proof.
  intros text r newText eol E lines sl el Hv Hlt.
  destruct (validRange_inv _ _ Hv) as (Hs & He & _).
  destruct (inBounds_row _ _ Hs) as (srow & _ & _ & Hsl & _).
  destruct (inBounds_row _ _ He) as (erow & _ & _ & Hel & _).
  assert (Hsl' : sl < el) by (unfold sl, el; lia).
  assert (Hel' : el < length lines) by (unfold el; lia).
  set (mid := firstn (el - sl - 1) (skipn (sl + 1) lines)).
  assert (Hmid : length mid = el - sl - 1).
  { unfold mid. rewrite length_firstn, length_skipn. lia. }
  assert (Hbef : length (firstn sl lines) = sl).
  { rewrite length_firstn. lia. }
  eexists. split; [apply replace_multi_line; assumption|].
  fold E. fold lines. fold sl. fold el. fold mid.
  repeat split.
  - rewrite length_app. simpl. rewrite length_app, Hbef, Hmid. simpl. lia.
  - intros i Hi. rewrite nth_error_app1 by lia.
    rewrite nth_error_firstn.
    destruct (Nat.ltb_spec i sl); [reflexivity | lia].
  - rewrite nth_error_app2 by lia. rewrite Hbef, Nat.sub_diag. reflexivity.
  - intros i Hi. rewrite nth_error_app2 by lia. rewrite Hbef.
    replace (i - sl) with (S (i - sl - 1)) by lia. simpl.
    rewrite nth_error_app1 by lia.
    unfold mid. rewrite nth_error_window by lia. f_equal. lia.
  - rewrite nth_error_app2 by lia. rewrite Hbef.
    replace (el - sl) with (S (length mid)) by lia. simpl.
    rewrite nth_error_app2 by lia. now rewrite Nat.sub_diag.
Qed.

Lemma X3_multi_line_replace_result_witness :
  let text := js "ab" ++ LF :: js "cd" ++ LF :: js "ef" ++ LF :: js "gh" in
  validRange (split text [LF]) (range 0 1 2 1) = true
  /\ (0 < 2)%Z
  /\ exists rows,
       replaceTextByRange text (range 0 1 2 1) (js "X") (Some [LF])
       = Ok (join rows [LF])
       /\ length rows = 3
       /\ nth_error rows 1 = Some (js "cd").
Proof.
  intros text. split; [reflexivity|]. split; [reflexivity|].
  destruct (X3_multi_line_replace_result text (range 0 1 2 1) (js "X")
              (Some [LF]) eq_refl eq_refl)
    as (rows & H1 & H2 & _ & _ & Hmid & _).
  exists rows. split; [exact H1|]. split; [exact H2|].
  exact (Hmid 1 (conj (le_n 1) (le_n 2))).
Defined.

(** A valid range within one row cuts the rows of the buffer around the
    prefix, the span and the suffix of that row. *)
Lemma single_line_cut lines r :
  let sl := Z.to_nat (line (start r)) in
  let sc := Z.to_nat (character (start r)) in
  let ec := Z.to_nat (character (end_ r)) in
  let row := nth sl lines [] in
  validRange lines r = true ->
  line (start r) = line (end_ r) ->
  lines = firstn sl lines
          ++ (firstn sc row ++ substring row sc ec ++ skipn ec row)
          :: skipn (S sl) lines
  /\ sc <= ec <= length row
  /\ sl < length lines
  /\ (0 <= line (start r))%Z
  /\ (0 <= character (start r) <= character (end_ r))%Z.
Proof.
  intros sl sc ec row Hv Hl.
  destruct (validRange_inv _ _ Hv) as (Hs & He & [Hlt|[_ Hc]]); [lia|].
  destruct (inBounds_row _ _ Hs) as (row0 & Hi & Hn & Hsl & Hsc).
  destruct (inBounds_row _ _ He) as (row' & _ & Hn' & _ & Hec).
  rewrite <- Hl, Hn in Hn'. subst row'.
  fold sl in Hn. fold row in Hn. subst row0.
  destruct (index_Some _ _ Hi) as [_ Hnth]. fold sl in Hnth.
  split.
  - rewrite <- row_cut by (unfold sc, ec; lia).
    exact (nth_error_cut _ _ Hnth).
  - unfold row, sl, sc, ec, jsstring in *. repeat split; lia.
Qed.

Lemma length_substring (row : jsstring) a b :
  a <= b <= length row -> length (substring row a b) = b - a.
Proof.
  intros H. unfold substring. rewrite length_firstn, length_skipn. lia.
Qed.

(** The text around the span of a cut row. *)
Lemma join_around before p mid q after e :
  join (before ++ (p ++ mid ++ q) :: after) e
  = join (before ++ [p]) e ++ mid ++ join (q :: after) e.
Proof.
  rewrite join_cut. f_equal. exact (join_cut [] mid q after e).
Qed.

(** X4.  On a valid range within one row, the length of the buffer
    changes by the length of [newText] minus the length of the span,
    [end.character - start.character], for every terminator. *)
Theorem X4_single_line_replace_length :
  forall text r newText eol,
    let E := orDefault defaultEol eol in
    validRange (split text E) r = true ->
    line (start r) = line (end_ r) ->
    exists result,
      replaceTextByRange text r newText eol = Ok result
      /\ (Z.of_nat (length result)
          = Z.of_nat (length text) + Z.of_nat (length newText)
            - (character (end_ r) - character (start r)))%Z.
Proof.
  intros text r newText eol E Hv Hl.
  destruct (single_line_cut _ _ Hv Hl) as (Hcut & Hc & _ & _ & Hz).
  eexists. split; [apply replace_single_line; assumption|].
  fold E.
  set (lines := split text E) in *.
  set (sl := Z.to_nat (line (start r))) in *.
  set (sc := Z.to_nat (character (start r))) in *.
  set (ec := Z.to_nat (character (end_ r))) in *.
  assert (Ht : length text
               = length (join (firstn sl lines
                               ++ [firstn sc (nth sl lines [])]) E)
                 + (ec - sc)
                 + length (join (skipn ec (nth sl lines [])
                                 :: skipn (S sl) lines) E)).
  { rewrite <- (join_split text E) at 1. fold lines.
    rewrite Hcut at 1. rewrite join_around.
    rewrite !length_app, (length_substring _ Hc).
    unfold jsstring in *. lia. }
  rewrite join_around, !length_app, Ht.
  unfold sc, ec, jsstring in *. lia.
Qed.

Lemma X4_single_line_replace_length_witness :
  let text := js "ab" ++ LF :: js "cdef" in
  validRange (split text [LF]) (range 1 1 1 3) = true
  /\ exists result,
       replaceTextByRange text (range 1 1 1 3) (js "XYZ") (Some [LF])
       = Ok result
       /\ (Z.of_nat (length result) = 7 + 3 - (3 - 1))%Z.
Proof.
  intros text. split; [reflexivity|].
  exact (X4_single_line_replace_length text (range 1 1 1 3) (js "XYZ")
           (Some [LF]) eq_refl eq_refl).
Defined.

(** X7.  When a valid range within one row ends at the end of that row,
    replacing it by its own slice gives the buffer back. *)
Theorem X7_slice_replace_at_row_end :
  forall text r eol,
    let E := orDefault defaultEol eol in
    let lines := split text E in
    validRange lines r = true ->
    line (start r) = line (end_ r) ->
    character (end_ r)
    = Z.of_nat (length (nth (Z.to_nat (line (start r))) lines [])) ->
    exists s,
      sliceTextByRange text r eol None = Ok (Str s)
      /\ replaceTextByRange text r s eol = Ok text.
Proof.
  intros text r eol E lines Hv Hl Hend.
  destruct (single_line_cut _ _ Hv Hl) as (Hcut & Hc & _ & _ & _).
  fold lines in Hcut.
  eexists. split; [exact (slice_single_line text r eol None Hv Hl)|].
  rewrite replace_single_line by assumption.
  fold E. fold lines. rewrite Hend, Nat2Z.id.
  set (sl := Z.to_nat (line (start r))) in *.
  set (row := nth sl lines []) in *.
  rewrite (skipn_all row), app_nil_r, firstn_skipn.
  rewrite <- row_cut in Hcut by lia.
  transitivity (Ok (join lines E)).
  - do 2 f_equal. symmetry. exact Hcut.
  - unfold lines. now rewrite join_split.
Qed.

Lemma X7_slice_replace_at_row_end_witness :
  let text := js "ab" ++ LF :: js "cdef" ++ LF :: js "g" in
  validRange (split text [LF]) (range 1 1 1 4) = true
  /\ exists s,
       sliceTextByRange text (range 1 1 1 4) (Some [LF]) None = Ok (Str s)
       /\ replaceTextByRange text (range 1 1 1 4) s (Some [LF]) = Ok text.
Proof.
  intros text. split; [reflexivity|].
  exact (X7_slice_replace_at_row_end text (range 1 1 1 4) (Some [LF])
           eq_refl eq_refl eq_refl).
Defined.

(** ** The rows after a replacement within one row *)

Section CanonicalRows.

Variable sep : jsstring.
Hypothesis sep_nonempty : sep <> [].

Lemma closedRow_free r : closedRow sep r -> free sep r.
Proof.
  intros H i. destruct (occursAt sep r i) eqn:E; [|reflexivity].
  pose proof (occursAt_bound sep_nonempty _ _ E) as Hb.
  rewrite <- (H i).
  - symmetry. now apply occursAt_longer.
  - destruct sep; [contradiction | simpl in Hb; lia].
Qed.

(** The rows [split] produces are canonical. *)
Lemma canonical_split rows :
  forall s, splitFrom sep 0 [] s = rows -> canonical sep rows.
Proof.
  induction rows as [|r rest IH]; intros s E.
  - now apply splitFrom_nonempty in E.
  - destruct rest as [|r' rest].
    + destruct (scan_last sep_nonempty _ _ E) as [Hr Hf].
      simpl in Hr. subst r. exact Hf.
    + destruct (scan_first sep_nonempty _ _ E) as (u & v & -> & Hr & Hnb & Hv);
        [discriminate|].
      simpl in Hr. subst u. split.
      * intros i Hi. rewrite <- (Hnb i Hi).
        rewrite (app_assoc r sep v). symmetry.
        apply occursAt_inside. rewrite length_app. lia.
      * symmetry in Hv. exact (IH _ Hv).
Qed.

(** Canonical rows are the rows of their join. *)
Lemma split_join_canonical rows :
  canonical sep rows -> splitFrom sep 0 [] (join rows sep) = rows.
Proof.
  induction rows as [|r rest IH]; intros H; [contradiction|].
  destruct rest as [|r' rest].
  - now apply split_free.
  - destruct H as [Hr Hrest].
    rewrite join_cons by discriminate.
    rewrite scan_through.
    + rewrite splitFrom_hit by assumption. simpl app. f_equal.
      exact (IH Hrest).
    + intros i Hi. rewrite <- (Hr i Hi).
      rewrite (app_assoc r sep _).
      apply occursAt_inside. rewrite length_app. lia.
Qed.

(** A canonical list stays canonical when one row is replaced by a
    closed one. *)
Lemma canonical_replace_row before :
  forall row after newRow,
    canonical sep (before ++ row :: after) ->
    closedRow sep newRow ->
    canonical sep (before ++ newRow :: after).
Proof.
  induction before as [|b before IH]; intros row after newRow H Hn.
  - destruct after as [|a after].
    + now apply closedRow_free.
    + destruct H as [_ H]. split; assumption.
  - change ((b :: before) ++ newRow :: after)
      with (b :: (before ++ newRow :: after)).
    change ((b :: before) ++ row :: after)
      with (b :: (before ++ row :: after)) in H.
    destruct (before ++ row :: after) as [|x xs] eqn:E1;
      [now destruct before|].
    destruct H as [Hb H].
    destruct (before ++ newRow :: after) as [|y ys] eqn:E2;
      [now destruct before|].
    split; [exact Hb|].
    rewrite <- E2. apply (IH row); [rewrite E1; exact H | exact Hn].
Qed.

(** With a terminator of one code unit, a row is closed as soon as it
    does not hold the terminator. *)
Lemma closedRow_unit r : length sep = 1 -> free sep r -> closedRow sep r.
Proof.
  intros H1 Hf i Hi. rewrite occursAt_inside by lia. apply Hf.
Qed.

Lemma free_app_unit a b :
  length sep = 1 -> free sep a -> free sep b -> free sep (a ++ b).
Proof.
  intros H1 Ha Hb i.
  destruct (Nat.lt_ge_cases i (length a)) as [Hi|Hi].
  - rewrite occursAt_inside by lia. apply Ha.
  - replace i with (length a + (i - length a)) by lia.
    rewrite occursAt_shift. apply Hb.
Qed.

End CanonicalRows.

(** The rows of the buffer after a replacement within one row whose
    rebuilt row is closed: the other rows are untouched. *)
Lemma single_line_replace_rows text r newText eol :
  let E := orDefault defaultEol eol in
  let lines := split text E in
  let sl := Z.to_nat (line (start r)) in
  let row := nth sl lines [] in
  let newRow := firstn (Z.to_nat (character (start r))) row
                ++ newText
                ++ skipn (Z.to_nat (character (end_ r))) row in
  E <> [] ->
  validRange lines r = true ->
  line (start r) = line (end_ r) ->
  closedRow E newRow ->
  split (join (firstn sl lines ++ newRow :: skipn (S sl) lines) E) E
  = firstn sl lines ++ newRow :: skipn (S sl) lines.
Proof.
  intros E lines sl row newRow HE Hv Hl Hclosed.
  destruct (single_line_cut _ _ Hv Hl) as (Hcut & _).
  fold lines sl in Hcut.
  rewrite split_scan by assumption.
  apply split_join_canonical; [assumption|].
  apply canonical_replace_row
    with (row := firstn (Z.to_nat (character (start r))) row
                 ++ substring row (Z.to_nat (character (start r)))
                              (Z.to_nat (character (end_ r)))
                 ++ skipn (Z.to_nat (character (end_ r))) row);
    [assumption | | exact Hclosed].
  assert (Hcan : canonical E lines).
  { apply (@canonical_split E HE lines text).
    unfold lines. now rewrite split_scan. }
  rewrite Hcut in Hcan. exact Hcan.
Qed.

(** With a terminator of one code unit, the rebuilt row is closed when
    [newText] does not hold the terminator. *)
Lemma single_line_newRow_closed text r newText eol :
  let E := orDefault defaultEol eol in
  let lines := split text E in
  let row := nth (Z.to_nat (line (start r))) lines [] in
  length E = 1 ->
  validRange lines r = true ->
  free E newText ->
  closedRow E (firstn (Z.to_nat (character (start r))) row
               ++ newText
               ++ skipn (Z.to_nat (character (end_ r))) row).
Proof.
  intros E lines row H1 Hv Hfree.
  assert (HE : E <> []) by (destruct E; [discriminate | discriminate]).
  destruct (validRange_inv _ _ Hv) as (Hs & _ & _).
  destruct (inBounds_row _ _ Hs) as (row0 & Hi & Hn & _ & _).
  destruct (index_Some _ _ Hi) as [_ Hnth].
  assert (Hrow : free E row).
  { apply (@row_free E HE (firstn (Z.to_nat (line (start r))) lines) text
             row (skipn (S (Z.to_nat (line (start r)))) lines)).
    rewrite <- split_scan by assumption. fold lines.
    fold row in Hn. rewrite <- Hn in Hnth.
    exact (nth_error_cut _ _ Hnth). }
  apply closedRow_unit; [assumption|].
  apply free_app_unit; [assumption | | apply free_app_unit; try assumption].
  - apply free_prefix with (t := skipn (Z.to_nat (character (start r))) row).
    now rewrite firstn_skipn.
  - apply free_suffix with (s := firstn (Z.to_nat (character (end_ r))) row).
    now rewrite firstn_skipn.
Qed.

(** Reading a list back around one of its elements. *)
Lemma around_element {A : Type} (before after : list A) (x d : A) n :
  length before = n ->
  firstn n (before ++ x :: after) = before
  /\ nth n (before ++ x :: after) d = x
  /\ nth_error (before ++ x :: after) n = Some x
  /\ skipn (S n) (before ++ x :: after) = after.
Proof.
  intros <-. repeat split.
  - rewrite firstn_app, Nat.sub_diag, firstn_all. simpl. apply app_nil_r.
  - apply nth_middle.
  - rewrite nth_error_app2 by lia. now rewrite Nat.sub_diag.
  - rewrite skipn_app, skipn_all2 by lia.
    replace (S (length before) - length before) with 1 by lia. reflexivity.
Qed.

Lemma validRange_intro (lines : list jsstring) l a b (row : jsstring) :
  index lines l = Some row ->
  (0 <= a)%Z -> (a <= b)%Z -> (b <= Z.of_nat (length row))%Z ->
  validRange lines (range l a l b) = true.
Proof.
  intros Hi Ha Hab Hb. unfold validRange, inBounds, ordered, range.
  cbn [start end_ line character].
  rewrite Hi, Z.eqb_refl.
  repeat (apply andb_true_intro; split); lia.
Qed.

(** X5.  A replacement within one row changes that row only: when the
    rebuilt row is closed (with a terminator of one code unit, when
    [newText] does not hold the terminator), the rows of the result are
    the rows of the buffer with the addressed row rebuilt as prefix,
    [newText], suffix. *)
Theorem X5_single_line_replace_touches_one_row :
  forall text r newText eol,
    let E := orDefault defaultEol eol in
    let lines := split text E in
    let sl := Z.to_nat (line (start r)) in
    let row := nth sl lines [] in
    let newRow := firstn (Z.to_nat (character (start r))) row
                  ++ newText
                  ++ skipn (Z.to_nat (character (end_ r))) row in
    E <> [] ->
    validRange lines r = true ->
    line (start r) = line (end_ r) ->
    closedRow E newRow \/ (length E = 1 /\ free E newText) ->
    exists result,
      replaceTextByRange text r newText eol = Ok result
      /\ split result E = firstn sl lines ++ newRow :: skipn (S sl) lines
      /\ rowCount result E = rowCount text E.
Proof.
  intros text r newText eol E lines sl row newRow HE Hv Hl Hrow.
  assert (Hclosed : closedRow E newRow).
  { destruct Hrow as [H|[H1 Hf]]; [exact H|].
    now apply single_line_newRow_closed. }
  destruct (single_line_cut _ _ Hv Hl) as (Hcut & _).
  eexists. split; [apply replace_single_line; assumption|].
  fold E lines sl row newRow.
  pose proof (single_line_replace_rows text r newText eol HE Hv Hl Hclosed)
    as Hrows.
  split; [exact Hrows|].
  unfold rowCount. fold lines. fold E lines sl row newRow in Hrows.
  rewrite Hrows. rewrite Hcut at 3. fold lines sl.
  rewrite !length_app. reflexivity.
Qed.

Lemma X5_single_line_replace_touches_one_row_witness :
  let text := js "ab" ++ LF :: js "cdef" ++ LF :: js "g" in
  [LF] <> []
  /\ validRange (split text [LF]) (range 1 1 1 3) = true
  /\ free [LF] (js "XY")
  /\ exists result,
       replaceTextByRange text (range 1 1 1 3) (js "XY") (Some [LF])
       = Ok result
       /\ split result [LF] = [js "ab"; js "cXYf"; js "g"].
Proof.
  intros text.
  assert (Hf : free [LF] (js "XY")).
  { intros [|[|[|i]]]; reflexivity. }
  split; [discriminate|]. split; [reflexivity|]. split; [exact Hf|].
  destruct (@X5_single_line_replace_touches_one_row text (range 1 1 1 3)
              (js "XY") (Some [LF]))
    as (result & H1 & H2 & _);
    [discriminate | reflexivity | reflexivity
     | right; split; [reflexivity | exact Hf] |].
  exists result. split; [exact H1 | exact H2].
Defined.

(** X6.  A replacement within one row can be undone: replacing, in the
    result, the range that [newText] now occupies by the span that was
    removed gives the original buffer back (under the proviso of X5). *)
Theorem X6_single_line_replace_undo :
  forall text r newText eol,
    let E := orDefault defaultEol eol in
    let lines := split text E in
    let sl := Z.to_nat (line (start r)) in
    let sc := Z.to_nat (character (start r)) in
    let ec := Z.to_nat (character (end_ r)) in
    let row := nth sl lines [] in
    let newRow := firstn sc row ++ newText ++ skipn ec row in
    let removed := substring row sc ec in
    let back := range (line (start r)) (character (start r))
                      (line (start r))
                      (character (start r) + Z.of_nat (length newText)) in
    E <> [] ->
    validRange lines r = true ->
    line (start r) = line (end_ r) ->
    closedRow E newRow \/ (length E = 1 /\ free E newText) ->
    exists result,
      replaceTextByRange text r newText eol = Ok result
      /\ validRange (split result E) back = true
      /\ replaceTextByRange result back removed eol = Ok text.
Proof.
  intros text r newText eol E lines sl sc ec row newRow removed back
         HE Hv Hl Hrow.
  assert (Hclosed : closedRow E newRow).
  { destruct Hrow as [H|[H1 Hf]]; [exact H|].
    now apply single_line_newRow_closed. }
  destruct (single_line_cut _ _ Hv Hl) as (Hcut & Hc & Hsl & Hl0 & Hz).
  fold lines sl sc ec row in Hcut, Hc, Hsl.
  pose proof (single_line_replace_rows text r newText eol HE Hv Hl Hclosed)
    as Hrows.
  fold E lines sl sc ec row newRow in Hrows.
  set (result := join (firstn sl lines ++ newRow :: skipn (S sl) lines) E)
    in *.
  assert (Hbef : length (firstn sl lines) = sl)
    by (rewrite length_firstn; unfold jsstring in *; lia).
  destruct (@around_element jsstring (firstn sl lines) (skipn (S sl) lines)
              newRow [] sl Hbef) as (Hf & Hn & Hne & Hs).
  assert (Hrowlen : sc <= ec <= length row)
    by (unfold row; unfold jsstring in *; lia).
  assert (Hp : length (firstn sc row) = sc)
    by (rewrite length_firstn; lia).
  assert (Hvalid : validRange (split result E) back = true).
  { rewrite Hrows. apply validRange_intro with (row := newRow); try lia.
    - unfold index. destruct (Z.ltb_spec (line (start r)) 0); [lia|].
      exact Hne.
    - unfold newRow. rewrite !length_app, Hp. unfold sc. lia. }
  exists result. split; [apply replace_single_line; assumption|].
  split; [exact Hvalid|].
  rewrite replace_single_line by (assumption || reflexivity).
  fold E. rewrite Hrows. unfold back, range.
  cbn [start end_ line character].
  fold sl. unfold jsstring in *. rewrite Hf, Hn, Hs.
  replace (Z.to_nat (character (start r) + Z.of_nat (length newText)))
    with (sc + length newText) by (unfold sc; lia).
  fold sc.
  assert (Hq : skipn (sc + length newText) newRow = skipn ec row).
  { unfold newRow. rewrite app_assoc, skipn_app, skipn_all2
      by (rewrite length_app, Hp; lia).
    rewrite length_app, Hp, Nat.sub_diag. reflexivity. }
  assert (Hpre : firstn sc newRow = firstn sc row).
  { unfold newRow. rewrite firstn_app, Hp, Nat.sub_diag, firstn_0, app_nil_r.
    rewrite firstn_all2 by lia. reflexivity. }
  rewrite Hq, Hpre.
  transitivity (Ok (join lines E)).
  - do 2 f_equal. symmetry. exact Hcut.
  - unfold lines. now rewrite join_split.
Qed.

Lemma X6_single_line_replace_undo_witness :
  let E := [CR; LF] in
  let text := js "ab" ++ E ++ js "cdef" in
  let result := js "ab" ++ E ++ js "cXf" in
  E <> []
  /\ validRange (split text E) (range 1 1 1 3) = true
  /\ closedRow E (js "cXf")
  /\ replaceTextByRange text (range 1 1 1 3) (js "X") (Some E) = Ok result
  /\ replaceTextByRange result (range 1 1 1 2) (js "de") (Some E) = Ok text.
Proof.
  intros E text result.
  assert (Hc : closedRow E (js "cXf")).
  { intros [|[|[|i]]] Hi; try reflexivity. simpl in Hi. lia. }
  split; [discriminate|]. split; [reflexivity|]. split; [exact Hc|].
  split; [reflexivity|].
  destruct (@X6_single_line_replace_undo text (range 1 1 1 3) (js "X")
              (Some E))
    as (res & H1 & _ & H2);
    [discriminate | reflexivity | reflexivity | left; exact Hc |].
  injection H1 as <-. exact H2.
Defined.

(** X8.  A negative [start.character] is not rejected: on a range within
    an existing row, [start.character = -k] with [0 < k <= row.length]
    counts from the end of the row, and the slice is the last [k] code
    units of the row. *)
Theorem X8_negative_start_character_counts_from_row_end :
  forall text l (k : nat) c eol (row : jsstring),
    let E := orDefault defaultEol eol in
    index (split text E) l = Some row ->
    0 < k <= length row ->
    sliceTextByRange text (range l (- Z.of_nat k) l c) eol None
    = Ok (Str (skipn (length row - k) row))
    /\ length (skipn (length row - k) row) = k.
Proof.
  intros text l k c eol row E Hi Hk.
  split; [|rewrite length_skipn; lia].
  unfold sliceTextByRange, range. cbn [start end_ line character].
  fold E. rewrite Hi. simpl bind. rewrite Z.eqb_refl.
  unfold slice, relativeIndex.
  destruct (Z.ltb_spec (- Z.of_nat k) 0); [|lia].
  replace (Z.to_nat (Z.max (Z.of_nat (length row) + - Z.of_nat k) 0))
    with (length row - k) by lia.
  rewrite firstn_all2; [reflexivity|].
  rewrite length_skipn. lia.
Qed.

Lemma X8_negative_start_character_counts_from_row_end_witness :
  index (split (js "hello") [LF]) 0 = Some (js "hello")
  /\ 0 < 2 <= length (js "hello")
  /\ sliceTextByRange (js "hello") (range 0 (-2) 0 0) (Some [LF]) None
     = Ok (Str (js "lo")).
Proof.
  split; [reflexivity|]. split; [simpl; lia|].
  exact (proj1 (@X8_negative_start_character_counts_from_row_end
                  (js "hello") 0%Z 2 0%Z (Some [LF]) (js "hello")
                  eq_refl (conj (le_S 1 1 (le_n 1))
                                (le_S 2 4 (le_S 2 3 (le_S 2 2 (le_n 2))))))).
Defined.

Lemma validRange_build (lines : list jsstring) l1 a l2 b
      (row1 row2 : jsstring) :
  index lines l1 = Some row1 ->
  index lines l2 = Some row2 ->
  (0 <= a <= Z.of_nat (length row1))%Z ->
  (0 <= b <= Z.of_nat (length row2))%Z ->
  (l1 < l2 \/ (l1 = l2 /\ a <= b))%Z ->
  validRange lines (range l1 a l2 b) = true.
Proof.
  intros H1 H2 Ha Hb Ho. unfold validRange, inBounds, ordered, range.
  cbn [start end_ line character]. rewrite H1, H2.
  repeat (apply andb_true_intro; split); lia.
Qed.

Lemma rows_head_middle_last (lines : list jsstring) :
  2 <= length lines ->
  lines = nth 0 lines []
          :: firstn (length lines - 2) (skipn 1 lines)
          ++ [nth (length lines - 1) lines []].
Proof.
  intros H. destruct lines as [|a rest]; [simpl in H; lia|].
  assert (Hr : rest <> []) by (destruct rest; [simpl in H; lia | discriminate]).
  destruct (exists_last Hr) as (mid & z & ->).
  simpl nth at 1. simpl skipn. f_equal.
  replace (length (a :: mid ++ [z]) - 2) with (length mid)
    by (simpl; rewrite length_app; simpl; lia).
  replace (length (a :: mid ++ [z]) - 1) with (S (length mid))
    by (simpl; rewrite length_app; simpl; lia).
  rewrite firstn_app, Nat.sub_diag, firstn_all. simpl firstn.
  rewrite app_nil_r. f_equal. f_equal.
  simpl nth. symmetry. apply nth_middle.
Qed.

(** X9.  The slice from (0,0) to the end of the last row is the whole
    buffer, and its rows form is the list of rows of the buffer; this
    holds whenever the buffer has a row, that is, unless both the buffer
    and the terminator are empty. *)
Theorem X9_full_range_slice_is_buffer :
  forall text eol,
    let E := orDefault defaultEol eol in
    let lines := split text E in
    let n := length lines in
    let full := range 0 0 (Z.of_nat (n - 1))
                      (Z.of_nat (length (nth (n - 1) lines []))) in
    lines <> [] ->
    validRange lines full = true
    /\ sliceTextByRange text full eol None = Ok (Str text)
    /\ sliceTextByRange text full eol (Some true) = Ok (Rows lines).
Proof.
  intros text eol E lines n full Hne.
  assert (Hn : 0 < n) by (unfold n; destruct lines; [contradiction | simpl; lia]).
  assert (H0 : index lines 0 = Some (nth 0 lines [])).
  { change 0%Z with (Z.of_nat 0). rewrite index_nat.
    apply nth_error_nth'. exact Hn. }
  assert (Hlast : index lines (Z.of_nat (n - 1))
                  = Some (nth (n - 1) lines [])).
  { rewrite index_nat. apply nth_error_nth'. unfold n in *. lia. }
  assert (Hv : validRange lines full = true).
  { apply validRange_build
      with (row1 := nth 0 lines []) (row2 := nth (n - 1) lines []);
      try assumption; lia. }
  split; [exact Hv|].
  assert (Hjoin : join lines E = text) by apply join_split.
  unfold sliceTextByRange. fold E lines.
  unfold full, range. cbn [start end_ line character].
  rewrite H0. cbn [bind deref].
  rewrite slice_from by lia. change (Z.to_nat 0) with 0. cbn [skipn].
  destruct (Z.eqb_spec 0 (Z.of_nat (n - 1))) as [Heq|Hneq].
  - assert (Hone : lines = [nth 0 lines []]).
    { destruct lines as [|a [|b rest]]; [contradiction | reflexivity |].
      unfold n in Heq. simpl in Heq. lia. }
    assert (Hrow : nth 0 lines [] = text).
    { rewrite <- Hjoin. rewrite Hone at 2. reflexivity. }
    cbn [orDefault]. rewrite Hrow. split; [reflexivity|].
    do 2 f_equal. rewrite <- Hrow. symmetry. exact Hone.
  - rewrite Hlast. cbn [bind deref].
    rewrite slice_upto by lia. rewrite Nat2Z.id, firstn_all.
    rewrite slice_between by (unfold n in *; lia).
    replace (Z.to_nat (Z.of_nat (n - 1)) - Z.to_nat (0 + 1)) with (n - 2)
      by lia.
    change (Z.to_nat (0 + 1)) with 1.
    assert (H2 : 2 <= length lines) by (unfold n in *; lia).
    pose proof (@rows_head_middle_last lines H2) as Hall. fold n in Hall.
    cbn [orDefault]. split.
    + rewrite <- Hjoin. do 3 f_equal. symmetry. exact Hall.
    + do 2 f_equal. symmetry. exact Hall.
Qed.

Lemma X9_full_range_slice_is_buffer_witness :
  let text := js "ab" ++ LF :: js "cd" ++ LF :: js "efg" in
  split text [LF] <> []
  /\ sliceTextByRange text (range 0 0 2 3) (Some [LF]) None = Ok (Str text).
Proof.
  intros text.
  assert (H : split text [LF] <> []) by discriminate.
  split; [exact H|].
  exact (proj1 (proj2 (@X9_full_range_slice_is_buffer text (Some [LF]) H))).
Defined.

(** ** [omit] *)

Lemma jsEqb_eq (a b : jsstring) : jsEqb a b = true <-> a = b.
Proof.
  revert b. induction a as [|x a IH]; intros [|y b]; simpl.
  - tauto.
  - split; discriminate.
  - split; discriminate.
  - rewrite andb_true_iff, Ascii.eqb_eq, IH.
    split.
    + intros [Hx Ha]. now subst.
    + intros H. injection H as Hx Ha. now split.
Qed.

Lemma jsEqb_refl (a : jsstring) : jsEqb a a = true.
Proof. now apply jsEqb_eq. Qed.

Lemma jsEqb_neq (a b : jsstring) : jsEqb a b = false <-> a <> b.
Proof.
  rewrite <- jsEqb_eq. destruct (jsEqb a b); split; congruence.
Qed.

Section OmitFacts.

Context {V : Type}.
Variable isObjectOrNull : V -> bool.
Variable afterInstall :
  V -> list (jsstring * V) -> list (jsstring * V) -> completion (JsObject V).
Implicit Types (o obj : list (jsstring * V)) (keys : list PropertyKey).

Lemma getOwn_cons kv o k :
  getOwn (kv :: o) k = if jsEqb (fst kv) k then Some (snd kv) else getOwn o k.
Proof. unfold getOwn. simpl. now destruct (jsEqb (fst kv) k). Qed.

Lemma getOwn_upsert o k v k' :
  getOwn (upsert o k v) k' = if jsEqb k k' then Some v else getOwn o k'.
Proof.
  induction o as [|[k0 v0] o IH]; simpl.
  - rewrite getOwn_cons. reflexivity.
  - destruct (jsEqb k0 k) eqn:E0; rewrite !getOwn_cons; simpl.
    + apply jsEqb_eq in E0 as ->. now destruct (jsEqb k k').
    + rewrite IH. destruct (jsEqb k0 k') eqn:E1; [|reflexivity].
      apply jsEqb_eq in E1 as ->. apply jsEqb_neq in E0.
      rewrite (proj2 (jsEqb_neq k k')) by congruence. reflexivity.
Qed.

Lemma getOwn_None o k : ~ In k (map fst o) -> getOwn o k = None.
Proof.
  induction o as [|[k0 v0] o IH]; intros H; [reflexivity|].
  rewrite getOwn_cons. simpl in *.
  destruct (jsEqb k0 k) eqn:E; [apply jsEqb_eq in E; tauto | apply IH; tauto].
Qed.

Lemma getOwn_In o k v :
  NoDup (map fst o) -> (getOwn o k = Some v <-> In (k, v) o).
Proof.
  induction o as [|[k0 v0] o IH]; intros Hnd.
  - split; [discriminate | contradiction].
  - inversion Hnd as [|? ? Hnotin Hnd']; subst.
    rewrite getOwn_cons. simpl.
    destruct (jsEqb k0 k) eqn:E.
    + apply jsEqb_eq in E as ->. split.
      * intros [= ->]. now left.
      * intros [[= ->]|Hin]; [reflexivity|].
        exfalso. apply Hnotin. now apply (in_map fst) in Hin.
    + rewrite IH by assumption. apply jsEqb_neq in E.
      split; [now right | intros [[= -> _]|Hin]; [contradiction | exact Hin]].
Qed.

(** Without an installed prototype the loop is [plainCopy]. *)
Lemma copyInto_plain keys obj :
  forall result,
    installsPrototype isObjectOrNull keys obj = false ->
    copyInto isObjectOrNull afterInstall keys obj result
    = Ok (mkObject (plainCopy keys obj result) ObjectPrototype).
Proof.
  induction obj as [|[k0 v0] obj IH]; intros result H; [reflexivity|].
  simpl in H. apply orb_false_iff in H as [H0 H].
  simpl. unfold plainCopy in *. simpl fold_left. unfold kept at 2. simpl.
  destruct (includes keys k0); simpl in *; [now apply IH|].
  destruct (jsEqb k0 protoKey); simpl in *; [|now apply IH].
  rewrite H0. now apply IH.
Qed.

Lemma getOwn_plainCopy keys obj :
  forall acc k,
    NoDup (map fst obj) ->
    getOwn (plainCopy keys obj acc) k
    = if kept keys k
      then match getOwn obj k with
           | Some v => Some v
           | None => getOwn acc k
           end
      else getOwn acc k.
Proof.
  unfold plainCopy.
  induction obj as [|[k0 v0] obj IH]; intros acc k Hnd.
  - simpl. now destruct (kept keys k).
  - inversion Hnd as [|? ? Hnotin Hnd']; subst.
    simpl fold_left. rewrite IH by assumption. rewrite getOwn_cons. simpl.
    destruct (jsEqb k0 k) eqn:E.
    + apply jsEqb_eq in E as ->.
      rewrite (@getOwn_None obj k Hnotin).
      destruct (kept keys k); [|reflexivity].
      now rewrite getOwn_upsert, jsEqb_refl.
    + assert (Hacc : getOwn (if kept keys k0 then upsert acc k0 v0 else acc) k
                     = getOwn acc k).
      { destruct (kept keys k0); [|reflexivity].
        now rewrite getOwn_upsert, E. }
      now rewrite Hacc.
Qed.

Lemma upsert_keys o k v :
  NoDup (map fst o) -> NoDup (map fst (upsert o k v)).
Proof.
  induction o as [|[k0 v0] o IH]; intros Hnd.
  - simpl. constructor; [intros [] | constructor].
  - inversion Hnd as [|? ? Hnotin Hnd']; subst. simpl.
    destruct (jsEqb k0 k) eqn:E; simpl.
    + constructor; assumption.
    + constructor; [|now apply IH].
      intros Hin. apply in_map_iff in Hin as ([k1 v1] & Hk & Hin).
      simpl in Hk. subst k1.
      assert (Hget : getOwn (upsert o k v) k0 = Some v1)
        by (apply getOwn_In; [now apply IH | exact Hin]).
      rewrite getOwn_upsert in Hget.
      apply jsEqb_neq in E.
      rewrite (proj2 (jsEqb_neq k k0)) in Hget by congruence.
      apply Hnotin. apply getOwn_In in Hget; [|assumption].
      now apply (in_map fst) in Hget.
Qed.

Lemma plainCopy_keys keys obj :
  forall acc, NoDup (map fst acc) -> NoDup (map fst (plainCopy keys obj acc)).
Proof.
  unfold plainCopy.
  induction obj as [|kv obj IH]; intros acc Hacc; [exact Hacc|].
  simpl. apply IH. destruct (kept keys (fst kv)); [|exact Hacc].
  now apply upsert_keys.
Qed.

(** What [omit] returns when no prototype is installed. *)
Lemma omit_plain obj keys :
  NoDup (map fst obj) ->
  installsPrototype isObjectOrNull keys obj = false ->
  omit isObjectOrNull afterInstall obj keys
  = Ok (mkObject (plainCopy keys obj []) ObjectPrototype)
  /\ NoDup (map fst (plainCopy keys obj []))
  /\ forall k,
       getOwn (plainCopy keys obj []) k
       = if includes keys k || jsEqb k protoKey then None else getOwn obj k.
Proof.
  intros Hnd Hinst. split; [now apply copyInto_plain|].
  split; [apply plainCopy_keys; constructor|].
  intros k. rewrite getOwn_plainCopy by assumption.
  unfold kept. destruct (includes keys k), (jsEqb k protoKey); simpl;
    try reflexivity.
  now destruct (getOwn obj k).
Qed.

Lemma getOwn_permutation o o' k :
  NoDup (map fst o) -> Permutation o o' -> getOwn o k = getOwn o' k.
Proof.
  intros Hnd Hp.
  assert (Hnd' : NoDup (map fst o'))
    by (eapply Permutation_NoDup; [apply Permutation_map; exact Hp | exact Hnd]).
  destruct (getOwn o k) as [v|] eqn:E.
  - symmetry. apply getOwn_In; [assumption|].
    apply (Permutation_in _ Hp). now apply getOwn_In.
  - destruct (getOwn o' k) as [v|] eqn:E'; [|reflexivity].
    apply getOwn_In in E'; [|assumption].
    apply (Permutation_in _ (Permutation_sym Hp)) in E'.
    apply getOwn_In in E'; [congruence | assumption].
Qed.

Lemma includes_app keys1 keys2 k :
  includes (keys1 ++ keys2) k = includes keys1 k || includes keys2 k.
Proof. unfold includes. apply existsb_app. Qed.

Lemma includes_strings keys k :
  includes (filter isStringKey keys) k = includes keys k.
Proof.
  induction keys as [|[s|n|i] keys IH]; simpl; auto.
  now rewrite IH.
Qed.

(** No prototype is installed when no property is named ["__proto__"]. *)
Lemma installsPrototype_absent keys obj :
  getOwn obj protoKey = None ->
  installsPrototype isObjectOrNull keys obj = false.
Proof.
  induction obj as [|[k0 v0] obj IH]; intros H; [reflexivity|].
  rewrite getOwn_cons in H. simpl in H. simpl.
  destruct (jsEqb k0 protoKey); [discriminate|].
  rewrite andb_false_r. simpl. now apply IH.
Qed.

(** Listing more keys installs no new prototype. *)
Lemma installsPrototype_more keys1 keys2 obj :
  installsPrototype isObjectOrNull keys1 obj = false ->
  installsPrototype isObjectOrNull (keys1 ++ keys2) obj = false.
Proof.
  induction obj as [|[k0 v0] obj IH]; intros H; [reflexivity|].
  simpl in *. apply orb_false_iff in H as [H0 H].
  rewrite IH by assumption. rewrite orb_false_r.
  rewrite includes_app.
  destruct (includes keys1 k0); [reflexivity|]. simpl in *.
  destruct (jsEqb k0 protoKey); simpl in *;
    [|now rewrite andb_false_r].
  rewrite H0. now rewrite andb_false_r.
Qed.

End OmitFacts.

(** X10.  When no assignment of the loop installs a prototype (no
    property named ["__proto__"], not listed in [keys], holds an object
    or [null]), [omit] returns an object with [Object.prototype] as its
    prototype that keeps exactly the properties whose name is not
    listed: it has no own property under a listed name nor under
    ["__proto__"], and under every other name it has the value the
    object has.  The property names of the object are distinct. *)
Theorem X10_omit_lookup :
  forall (V : Type) (isObjectOrNull : V -> bool) afterInstall
         (obj : list (jsstring * V)) keys,
    NoDup (map fst obj) ->
    installsPrototype isObjectOrNull keys obj = false ->
    exists result,
      omit isObjectOrNull afterInstall obj keys = Ok result
      /\ proto result = ObjectPrototype
      /\ NoDup (map fst (own result))
      /\ forall k,
           getOwn (own result) k
           = if includes keys k || jsEqb k protoKey then None
             else getOwn obj k.
Proof.
  intros V isObjectOrNull afterInstall obj keys Hnd Hinst.
  destruct (@omit_plain V isObjectOrNull afterInstall obj keys Hnd Hinst)
    as (Ho & Hk & Hget).
  eexists. split; [exact Ho|]. simpl. auto.
Qed.

Lemma X10_omit_lookup_witness :
  let obj := [(js "a", 1); (js "b", 2); (js "c", 3)] in
  let keys := [PString (js "a"); PString (js "c")] in
  let isObjectOrNull := fun _ : nat => false in
  let afterInstall :=
    fun (_ : nat) (_ _ : list (jsstring * nat)) =>
      @Throw (JsObject nat) TypeError in
  NoDup (map fst obj)
  /\ installsPrototype isObjectOrNull keys obj = false
  /\ omit isObjectOrNull afterInstall obj keys
     = Ok (mkObject [(js "b", 2)] ObjectPrototype)
  /\ exists result,
       omit isObjectOrNull afterInstall obj keys = Ok result
       /\ getOwn (own result) (js "b") = Some 2
       /\ getOwn (own result) (js "c") = None.
Proof.
  intros obj keys isObjectOrNull afterInstall.
  assert (Hnd : NoDup (map fst obj)).
  { repeat constructor; simpl; intros H;
      repeat (destruct H as [H|H]; [discriminate|]); exact H. }
  split; [exact Hnd|]. split; [reflexivity|]. split; [reflexivity|].
  destruct (@X10_omit_lookup nat isObjectOrNull afterInstall obj keys
              Hnd eq_refl) as (result & Ho & _ & _ & Hget).
  exists result. split; [exact Ho|].
  split; [exact (Hget (js "b")) | exact (Hget (js "c"))].
Defined.

(** X11.  Only the string entries of [keys] count: the property names
    that [for ... in] yields are strings, and [includes] finds no number
    and no symbol equal to a string.  So [omit(obj, 1)] keeps the
    property named "1". *)
Theorem X11_omit_ignores_non_string_keys :
  forall (V : Type) (isObjectOrNull : V -> bool) afterInstall
         (obj : list (jsstring * V)) keys,
    omit isObjectOrNull afterInstall obj keys
    = omit isObjectOrNull afterInstall obj (filter isStringKey keys)
    /\ forall (v : V) n,
         omit isObjectOrNull afterInstall [(js "1", v)] [PNumber n]
         = Ok (mkObject [(js "1", v)] ObjectPrototype).
Proof.
  intros V isObjectOrNull afterInstall obj keys. split; [|reflexivity].
  unfold omit. generalize (@nil (jsstring * V)).
  induction obj as [|kv obj IH]; intros acc; [reflexivity|].
  simpl. rewrite includes_strings, !IH.
  assert (Hf : filter (fun kv' => negb (includes keys (fst kv'))) obj
               = filter (fun kv' =>
                           negb (includes (filter isStringKey keys) (fst kv')))
                        obj).
  { apply filter_ext. intros kv'. now rewrite includes_strings. }
  now rewrite Hf.
Qed.

(** X12.  When the first step installs no prototype, omitting in two
    steps is omitting at once, in whatever order the own properties of
    the intermediate object are visited: the intermediate object has
    [Object.prototype] as its prototype, both [omit(omit(obj, ...ks1),
    ...ks2)] and [omit(obj, ...ks1, ...ks2)] return, and under every
    name they have the same own property or none. *)
Theorem X12_omit_twice :
  forall (V : Type) (isObjectOrNull : V -> bool) afterInstall
         (obj : list (jsstring * V)) ks1 ks2,
    NoDup (map fst obj) ->
    installsPrototype isObjectOrNull ks1 obj = false ->
    exists first,
      omit isObjectOrNull afterInstall obj ks1 = Ok first
      /\ proto first = ObjectPrototype
      /\ forall mid,
           Permutation (own first) mid ->
           exists second once,
             omit isObjectOrNull afterInstall mid ks2 = Ok second
             /\ omit isObjectOrNull afterInstall obj (ks1 ++ ks2) = Ok once
             /\ proto second = ObjectPrototype
             /\ proto once = ObjectPrototype
             /\ forall k, getOwn (own second) k = getOwn (own once) k.
Proof.
  intros V isObjectOrNull afterInstall obj ks1 ks2 Hnd Hinst.
  destruct (@omit_plain V isObjectOrNull afterInstall obj ks1 Hnd Hinst)
    as (H1 & Hnd1 & Hget1).
  eexists. split; [exact H1|]. split; [reflexivity|].
  simpl own. intros mid Hp.
  assert (Hmid : NoDup (map fst mid))
    by (eapply Permutation_NoDup; [apply Permutation_map; exact Hp | exact Hnd1]).
  assert (Hnoproto : getOwn mid protoKey = None).
  { rewrite <- (@getOwn_permutation V _ mid protoKey Hnd1 Hp), Hget1.
    rewrite jsEqb_refl. now rewrite orb_true_r. }
  destruct (@omit_plain V isObjectOrNull afterInstall mid ks2 Hmid
              (@installsPrototype_absent V isObjectOrNull ks2 mid Hnoproto))
    as (H2 & _ & Hget2).
  destruct (@omit_plain V isObjectOrNull afterInstall obj (ks1 ++ ks2) Hnd
              (@installsPrototype_more V isObjectOrNull ks1 ks2 obj Hinst))
    as (H3 & _ & Hget3).
  eexists. eexists. split; [exact H2|]. split; [exact H3|].
  split; [reflexivity|]. split; [reflexivity|].
  simpl own. intros k.
  rewrite Hget2, Hget3, <- (@getOwn_permutation V _ mid k Hnd1 Hp), Hget1.
  rewrite includes_app.
  destruct (includes ks1 k), (includes ks2 k), (jsEqb k protoKey); reflexivity.
Qed.

Lemma X12_omit_twice_witness :
  let obj := [(js "a", 1); (js "b", 2); (js "c", 3)] in
  let mid := [(js "c", 3); (js "b", 2)] in
  let isObjectOrNull := fun _ : nat => false in
  let afterInstall :=
    fun (_ : nat) (_ _ : list (jsstring * nat)) =>
      @Throw (JsObject nat) TypeError in
  NoDup (map fst obj)
  /\ installsPrototype isObjectOrNull [PString (js "a")] obj = false
  /\ omit isObjectOrNull afterInstall obj [PString (js "a")]
     = Ok (mkObject [(js "b", 2); (js "c", 3)] ObjectPrototype)
  /\ exists second once,
       omit isObjectOrNull afterInstall mid [PString (js "c")] = Ok second
       /\ omit isObjectOrNull afterInstall obj
               [PString (js "a"); PString (js "c")] = Ok once
       /\ getOwn (own second) (js "b") = getOwn (own once) (js "b").
Proof.
  intros obj mid isObjectOrNull afterInstall.
  assert (Hnd : NoDup (map fst obj)).
  { repeat constructor; simpl; intros H;
      repeat (destruct H as [H|H]; [discriminate|]); exact H. }
  split; [exact Hnd|]. split; [reflexivity|]. split; [reflexivity|].
  destruct (@X12_omit_twice nat isObjectOrNull afterInstall obj
              [PString (js "a")] [PString (js "c")] Hnd eq_refl)
    as (first & H1 & _ & Hall).
  injection H1 as <-.
  destruct (Hall mid (perm_swap _ _ _))
    as (second & once & H2 & H3 & _ & _ & Hget).
  exists second, once. split; [exact H2|]. split; [exact H3|].
  exact (Hget (js "b")).
Defined.

(** ** [css] *)

(** X13.  Without substitutions [css] returns the raw strings of the
    template concatenated, and cannot throw; a template with no
    interpolation has one raw string, which is the result. *)
Theorem X13_css_without_substitutions :
  forall (V : Type) (toString : V -> completion jsstring) template,
    css toString template [] = Ok (concat (raw template))
    /\ forall s, css toString (mkTemplate [s]) [] = Ok s.
Proof.
  intros V toString [literals]. split; [|reflexivity].
  unfold css. simpl raw.
  induction literals as [|l rest IH]; [reflexivity|].
  destruct rest as [|l' rest]; [simpl; now rewrite app_nil_r|].
  change (StringRaw toString (l :: l' :: rest) [])
    with (r <- StringRaw toString (l' :: rest) [] ;; Ok (l ++ r)).
  rewrite IH. reflexivity.
Qed.

(** X14.  Substitutions beyond the gaps between the raw strings are
    ignored: they are not converted and cannot make the call throw. *)
Theorem X14_css_ignores_extra_substitutions :
  forall (V : Type) (toString : V -> completion jsstring) template
         substitutions extra,
    length (raw template) <= S (length substitutions) ->
    css toString template (substitutions ++ extra)
    = css toString template substitutions.
Proof.
  intros V toString [literals] subs extra. unfold css. simpl raw.
  revert subs. induction literals as [|l rest IH]; intros subs H;
    [reflexivity|].
  destruct rest as [|l' rest]; [reflexivity|].
  destruct subs as [|x subs]; [simpl in H; lia|].
  change (StringRaw toString (l :: l' :: rest) ((x :: subs) ++ extra))
    with (t <- toString x ;;
          r <- StringRaw toString (l' :: rest) (subs ++ extra) ;;
          Ok (l ++ t ++ r)).
  rewrite IH by (simpl in *; lia). reflexivity.
Qed.

Lemma X14_css_ignores_extra_substitutions_witness :
  let toString := fun n : nat =>
    if Nat.eqb n 0 then Throw TypeError else Ok (js "v") in
  length [js "a"; js "b"] <= S (length [5])
  /\ css toString (mkTemplate [js "a"; js "b"]) ([5] ++ [0]) = Ok (js "avb").
Proof.
  intros toString. split; [simpl; lia|].
  exact (@X14_css_ignores_extra_substitutions nat toString
           (mkTemplate [js "a"; js "b"]) [5] [0] (le_n 2)).
Defined.
